(** * gemini-project-hub: the reorderable gallery and its sandboxed viewer

    A shallow embedding of [src/App.jsx]: the content sanitizer [cleanCode],
    the accent palette [COLORS], the viewer's document injection, the
    snapshot listener with its comparator, and the three drag handlers,
    followed by the properties the specification states about them. *)

From Stdlib Require Import List ZArith NArith Lia Bool Arith.
From Stdlib Require Import Strings.String Strings.Ascii.
From Stdlib Require Import Sorting.Sorted Sorting.Permutation.
Import ListNotations.

(* ================================================================= *)
(** ** JavaScript strings *)

(** A JavaScript string is a sequence of UTF-16 code units.  [lit] writes an
    ASCII literal. *)
Definition jsstring := list N.

Definition lit (s : string) : jsstring :=
  map N_of_ascii (list_ascii_of_string s).

(** The line feed and the double quote, for literals. *)
Definition nl : string := String (ascii_of_nat 10) EmptyString.
Definition dq : string := String (ascii_of_nat 34) EmptyString.

Definition jsstring_eqb (a b : jsstring) : bool :=
  if list_eq_dec N.eq_dec a b then true else false.

Module Sanitizer.

(** [[a-z]] under the [i] flag (no [u] flag): the ASCII letters of both
    cases; a code unit of 128 or more is never folded onto an ASCII one. *)
Definition is_letter (c : N) : bool :=
  ((65 <=? c) && (c <=? 90) || (97 <=? c) && (c <=? 122))%N.

(** What [String.prototype.trim] removes: WhiteSpace (TAB, VT, FF, SP, NBSP,
    ZWNBSP and the other space separators) and LineTerminator (LF, CR, LS,
    PS). *)
Definition is_ws (c : N) : bool :=
  ((9 <=? c) && (c <=? 13) || (c =? 32) || (c =? 160) || (c =? 5760)
   || (8192 <=? c) && (c <=? 8202) || (c =? 8232) || (c =? 8233)
   || (c =? 8239) || (c =? 8287) || (c =? 12288) || (c =? 65279))%N.

Definition backtick : N := 96%N.
Definition LF : N := 10%N.
Definition fence : jsstring := [backtick; backtick; backtick].

(** A regular expression as the matcher the two patterns of [cleanCode]
    need: given whether the candidate position is the start of the input
    and the input from that position on, the length of the match there. *)
Definition pattern := bool -> jsstring -> option nat.

(** [input.replace(re, '')] for a regular expression without the [g] flag:
    the leftmost position at which [re] matches loses the matched text,
    and an input with no match is returned as it is. *)
Fixpoint replace_from (re : pattern) (at_start : bool) (s : jsstring)
  : jsstring :=
  match re at_start s with
  | Some n => skipn n s
  | None =>
      match s with
      | [] => []
      | c :: s' => c :: replace_from re false s'
      end
  end.

Definition replace (re : pattern) (s : jsstring) : jsstring :=
  replace_from re true s.

(** The longest run of letters at the head of [s]. *)
Fixpoint letters (s : jsstring) : nat :=
  match s with
  | c :: s' => if is_letter c then S (letters s') else 0
  | [] => 0
  end.

(** [/^```[a-z]*\n/i]: without the [m] flag [^] is the start of the input
    only.  The star is greedy and what follows it, a line feed, is not a
    letter, so the run of letters matched is the longest one. *)
Definition re_open : pattern := fun at_start s =>
  if at_start then
    match s with
    | c1 :: c2 :: c3 :: r =>
        if ((c1 =? backtick) && (c2 =? backtick) && (c3 =? backtick))%N then
          match skipn (letters r) r with
          | c :: _ => if (c =? LF)%N then Some (3 + letters r + 1) else None
          | [] => None
          end
        else None
    | _ => None
    end
  else None.

(** [/```$/]: without the [m] flag [$] is the end of the input only. *)
Definition re_close : pattern := fun _ s =>
  if jsstring_eqb s fence then Some 3 else None.

Fixpoint trimStart (s : jsstring) : jsstring :=
  match s with
  | c :: s' => if is_ws c then trimStart s' else s
  | [] => []
  end.

Definition trimEnd (s : jsstring) : jsstring := rev (trimStart (rev s)).

Definition trim (s : jsstring) : jsstring := trimEnd (trimStart s).

(** [const cleanCode = (input) =>
      input.replace(/^```[a-z]*\n/i, '').replace(/```$/, '').trim();] *)
Definition cleanCode (input : jsstring) : jsstring :=
  trim (replace re_close (replace re_open input)).

End Sanitizer.

Import Sanitizer.

(* ================================================================= *)
(** ** Entries and object identity *)

(** The fields of a stored project that the program reads.  Entries written
    by the current [handleSave] carry [color] and [orderIndex]; those written
    by the earlier uploader carry neither, and [createdAt] is missing while
    the server timestamp is pending.  [createdAt] holds the timestamp's
    [seconds]. *)
Record Entry := mkEntry {
  id : jsstring;
  title : jsstring;
  description : jsstring;
  code : jsstring;
  color : option jsstring;
  orderIndex : option Z;
  createdAt : option Z
}.

(** What a slot of [projects] or the [draggedItem] marker can hold.  The
    program never mutates an entry object, so an object is its address
    together with its fields, and [===] on objects compares addresses. *)
Inductive value :=
| VUndefined
| VNull
| VObj (ref : nat) (e : Entry).

Definition strict_eq (a b : value) : bool :=
  match a, b with
  | VUndefined, VUndefined => true
  | VNull, VNull => true
  | VObj r _, VObj r' _ => Nat.eqb r r'
  | _, _ => false
  end.

Definition is_entry (v : value) : bool :=
  match v with VObj _ _ => true | _ => false end.

(* ================================================================= *)
(** ** The accent palette *)

Record Theme := mkTheme {
  name : string; bg : string; text : string; border : string;
  hover : string; shadow : string; ring : string
}.

Definition indigo : Theme :=
  mkTheme "Indigo" "bg-indigo-50" "text-indigo-600" "border-indigo-200"
          "hover:border-indigo-300" "hover:shadow-indigo-200/50" "ring-indigo-500".
Definition emerald : Theme :=
  mkTheme "Emerald" "bg-emerald-50" "text-emerald-600" "border-emerald-200"
          "hover:border-emerald-300" "hover:shadow-emerald-200/50" "ring-emerald-500".
Definition amber : Theme :=
  mkTheme "Amber" "bg-amber-50" "text-amber-600" "border-amber-200"
          "hover:border-amber-300" "hover:shadow-amber-200/50" "ring-amber-500".
Definition rose : Theme :=
  mkTheme "Rose" "bg-rose-50" "text-rose-600" "border-rose-200"
          "hover:border-rose-300" "hover:shadow-rose-200/50" "ring-rose-500".
Definition cyan : Theme :=
  mkTheme "Cyan" "bg-cyan-50" "text-cyan-600" "border-cyan-200"
          "hover:border-cyan-300" "hover:shadow-cyan-200/50" "ring-cyan-500".
Definition purple : Theme :=
  mkTheme "Purple" "bg-purple-50" "text-purple-600" "border-purple-200"
          "hover:border-purple-300" "hover:shadow-purple-200/50" "ring-purple-500".

(** The object literal [COLORS], its own properties in source order. *)
Definition COLORS : list (jsstring * Theme) :=
  [ (lit "indigo", indigo); (lit "emerald", emerald); (lit "amber", amber);
    (lit "rose", rose); (lit "cyan", cyan); (lit "purple", purple) ].

(** [COLORS[key]] as far as the palette goes: the theme of an own property,
    and [None] for every other key, where the lookup yields [undefined] (or
    a member inherited from [Object.prototype]), never a palette entry. *)
Fixpoint get (o : list (jsstring * Theme)) (key : jsstring) : option Theme :=
  match o with
  | [] => None
  | (k, t) :: o' => if jsstring_eqb k key then Some t else get o' key
  end.

(** [p.color || 'indigo']: an absent field and the empty string are falsy. *)
Definition color_or_default (p : Entry) : jsstring :=
  match color p with
  | Some (c :: s) => c :: s
  | Some [] | None => lit "indigo"
  end.

(** [const theme = COLORS[p.color || 'indigo'];] *)
Definition theme (p : Entry) : option Theme :=
  get COLORS (color_or_default p).

(* ================================================================= *)
(** ** ProjectViewer: what the effect writes into the frame's document *)

(** The expression the handler assigns to [document.body.innerHTML]: a
    panel headed [Runtime Error] around the message [m]. *)
Definition error_panel : jsstring :=
  lit ("'<div style=" ++ dq ++ "color:red;padding:20px;font-family:sans-serif" ++ dq
       ++ "><h3>Runtime Error</h3>'+m+'</div>'").

Definition script : jsstring :=
  lit ("<script>window.onerror = function(m){document.body.innerHTML='<div style="
       ++ dq ++ "color:red;padding:20px;font-family:sans-serif" ++ dq
       ++ "><h3>Runtime Error</h3>'+m+'</div>'}</script>").


(** The value of the expression [error_panel] for a message [m]. *)
Definition panel (m : jsstring) : jsstring :=
  lit ("<div style=" ++ dq ++ "color:red;padding:20px;font-family:sans-serif" ++ dq
       ++ "><h3>Runtime Error</h3>") ++ m ++ lit "</div>".




(* ================================================================= *)
(** ** The snapshot listener *)

(** [createdAt?.seconds || 0] *)
Definition seconds (e : Entry) : Z :=
  match createdAt e with Some s => s | None => 0%Z end.

(** The comparator passed to [data.sort].  The source subtracts doubles;
    on the integers doubles hold, the difference taken in [Z] has the same
    sign, which is all [sort] reads, though not always the same value. *)
Definition compareProjects (a b : Entry) : Z :=
  match orderIndex a, orderIndex b with
  | Some x, Some y => (x - y)%Z
  | _, _ => (seconds b - seconds a)%Z
  end.

(** [Array.prototype.sort] with a comparator.  The language fixes the result
    for a consistent comparator: the stable sorted arrangement, which is what
    this insertion sort computes (an element goes in front of the first one
    it does not compare greater than, and elements are taken from the right).
    For an inconsistent comparator the language leaves the order to the
    engine; no property below depends on the order in that case. *)
Section Sort.
Context {A : Type} (cmp : A -> A -> Z).

Fixpoint insert (x : A) (l : list A) : list A :=
  match l with
  | [] => [x]
  | y :: l' => if (cmp x y <=? 0)%Z then x :: l else y :: insert x l'
  end.

Definition sort (l : list A) : list A := fold_right insert [] l.
End Sort.

(** An object of [data]: its address and its fields. *)
Definition obj : Type := nat * Entry.

Definition to_value (o : obj) : value := VObj (fst o) (snd o).

(** [snap.docs.map(d => ({ id: d.id, ...d.data() }))]: one new object per
    document, at addresses not used before. *)
Definition fresh (next : nat) (docs : list Entry) : list obj :=
  combine (seq next (List.length docs)) docs.

Inductive Effect :=
| ConsoleLog (msg : string)
| ConsoleError (msg : string)
| BatchCommit (updates : list (jsstring * nat))
| UncaughtTypeError.

(** The component state the two subsystems use, and the next free address. *)
Record State := mkState {
  projects : list value;
  draggedItem : value;
  isCreator : bool;
  next_ref : nat
}.

Definition initial : State := mkState [] VNull false 0.

Definition set_projects (st : State) (ps : list value) : State :=
  mkState ps (draggedItem st) (isCreator st) (next_ref st).

Definition set_draggedItem (st : State) (v : value) : State :=
  mkState (projects st) v (isCreator st) (next_ref st).

(** The [onAuthStateChanged] callback, [setIsCreator(!!u)]; [signed_in]
    says whether [u] is a user. *)
Definition onAuthStateChanged (st : State) (signed_in : bool) : State :=
  mkState (projects st) (draggedItem st) signed_in (next_ref st).

(** The success callback of [onSnapshot]. *)
Definition onSnapshot (st : State) (docs : list Entry) : State :=
  let data := fresh (next_ref st) docs in
  let data := sort (fun a b => compareProjects (snd a) (snd b)) data in
  mkState (map to_value data) (draggedItem st) (isCreator st)
          (next_ref st + List.length docs).

(** The error callback of [onSnapshot]: it logs and sets nothing. *)
Definition onSnapshotError (st : State) : State * list Effect :=
  (st, [ConsoleLog "DB Error:"]).

(* ================================================================= *)
(** ** Drag and drop *)

(** [projects[index]] *)
Definition at_index (ps : list value) (index : nat) : value :=
  nth index ps VUndefined.

(** [items.splice(index, 0, x)]: a start past the end is the end. *)
Definition splice_in (items : list value) (index : nat) (x : value)
  : list value :=
  firstn index items ++ x :: skipn index items.

Definition handleDragStart (st : State) (index : nat) : State :=
  set_draggedItem st (at_index (projects st) index).

Definition handleDragOver (st : State) (index : nat) : State :=
  let draggedOverItem := at_index (projects st) index in
  if strict_eq (draggedItem st) draggedOverItem then st
  else
    let items :=
      filter (fun item => negb (strict_eq item (draggedItem st))) (projects st) in
    set_projects st (splice_in items index (draggedItem st)).

(** [onDragOver={(e) => isCreator && handleDragOver(e, index)}] *)
Definition onDragOver (st : State) (index : nat) : State :=
  if isCreator st then handleDragOver st index else st.

(** The [forEach] of [handleDragEnd]: one [batch.update] per slot, slot
    [index] writing [orderIndex: index] to the document [proj.id]; reading
    [.id] of [null] or [undefined] throws, which is [None]. *)
Fixpoint batch_updates (ps : list value) (index : nat)
  : option (list (jsstring * nat)) :=
  match ps with
  | [] => Some []
  | VObj _ proj :: ps' =>
      match batch_updates ps' (S index) with
      | Some us => Some ((id proj, index) :: us)
      | None => None
      end
  | _ :: _ => None
  end.

(** [handleDragEnd]; [commit_ok] is the store's answer to [batch.commit()].
    A throw inside the [forEach] leaves the function before the [try]. *)
Definition handleDragEnd (st : State) (commit_ok : bool)
  : State * list Effect :=
  let st' := set_draggedItem st VNull in
  match batch_updates (projects st) 0 with
  | None => (st', [UncaughtTypeError])
  | Some us =>
      (st', [BatchCommit us;
             if commit_ok then ConsoleLog "Order saved!"
             else ConsoleError "Failed to save order"])
  end.

(** The events of the list view and the controller loop over them.  The
    drag handle is rendered for creators only, so a guest's view delivers no
    drag start and no drag end.  [index] is the card's position in the
    rendered list, which is [projects] itself while the search box is
    empty. *)
Inductive Event :=
| AuthState (signed_in : bool)
| Snapshot (docs : list Entry)
| SnapshotError
| DragStart (index : nat)
| DragOver (index : nat)
| DragEnd (commit_ok : bool).

Definition step (st : State) (ev : Event) : State * list Effect :=
  match ev with
  | AuthState signed_in => (onAuthStateChanged st signed_in, [])
  | Snapshot docs => (onSnapshot st docs, [])
  | SnapshotError => onSnapshotError st
  | DragStart index =>
      (if isCreator st then handleDragStart st index else st, [])
  | DragOver index => (onDragOver st index, [])
  | DragEnd commit_ok =>
      if isCreator st then handleDragEnd st commit_ok else (st, [])
  end.

Fixpoint run (st : State) (evs : list Event) : State * list Effect :=
  match evs with
  | [] => (st, [])
  | ev :: evs' =>
      let (st1, out1) := step st ev in
      let (st2, out2) := run st1 evs' in
      (st2, out1 ++ out2)
  end.

(** The engine is dragging while the marker holds something. *)
Definition dragging (st : State) : bool :=
  negb (strict_eq (draggedItem st) VNull).

(** The entries a list holds, in order (slots that hold no entry are
    skipped). *)
Fixpoint entries (ps : list value) : list Entry :=
  match ps with
  | [] => []
  | VObj _ e :: ps' => e :: entries ps'
  | _ :: ps' => entries ps'
  end.

(** The document ids of a list, in order (slots that hold no entry are
    skipped). *)
Fixpoint ids (ps : list value) : list jsstring :=
  match ps with
  | [] => []
  | VObj _ e :: ps' => id e :: ids ps'
  | _ :: ps' => ids ps'
  end.

(* ================================================================= *)
(** ** Vocabulary of the statements *)

(** An opening fence line, as the first pattern of [cleanCode] reads it, and
    texts that start with one or end with a closing fence. *)
Definition opening_marker (m : jsstring) : Prop :=
  exists ls, Forall (fun c => is_letter c = true) ls /\ m = fence ++ ls ++ [LF].

Definition starts_with_opening_marker (s : jsstring) : Prop :=
  exists m rest, opening_marker m /\ s = m ++ rest.

Definition ends_with_fence (s : jsstring) : Prop :=
  exists p, s = p ++ fence.

(** Only characters that [trim] removes. *)
Definition blank (ws : jsstring) : Prop := Forall (fun c => is_ws c = true) ws.

(** No such character in front. *)
Definition clean_head (s : jsstring) : Prop :=
  match s with c :: _ => is_ws c = false | [] => True end.

(** A comparator that orders the elements of a batch consistently: swapping
    the arguments swaps the sign, and "not after" is transitive.  For such
    a comparator the language fixes what [Array.prototype.sort] returns. *)
Definition consistent {A : Type} (cmp : A -> A -> Z) (l : list A) : Prop :=
  forall a b c, In a l -> In b l -> In c l ->
    ((cmp a b < 0)%Z <-> (cmp b a > 0)%Z) /\
    ((cmp a b <= 0)%Z -> (cmp b c <= 0)%Z -> (cmp a c <= 0)%Z).

(** A list that ascends in an integer key. *)
Definition ascending {A : Type} (key : A -> Z) : list A -> Prop :=
  StronglySorted (fun a b => (key a <= key b)%Z).

(* ================================================================= *)
(** ** Sample batches *)

Module Sample.

Definition entry (i : string) (oi : option Z) (secs : Z) : Entry :=
  mkEntry (lit i) (lit "Title") (lit "About") (lit "<p>x</p>") None oi (Some secs).

(** A mixed batch: [a] and [b] carry [orderIndex], the legacy entry [c]
    does not; [b] is the newest. *)
Definition a : Entry := entry "a" (Some 0%Z) 1.
Definition b : Entry := entry "b" (Some 1%Z) 2.
Definition c : Entry := entry "c" None 0.

(** The same two documents before and after another client swapped them. *)
Definition a' : Entry := entry "a" (Some 1%Z) 1.
Definition b' : Entry := entry "b" (Some 0%Z) 2.

End Sample.

(* ================================================================= *)
(** ** String methods used by the routing and the search box *)

(** [s.startsWith(prefix)] *)
Fixpoint startsWith (s prefix : jsstring) : bool :=
  match prefix, s with
  | [], _ => true
  | p :: prefix', c :: s' => (c =? p)%N && startsWith s' prefix'
  | _ :: _, [] => false
  end.

(** [s.replace(pat, '')] for a string pattern: the first occurrence goes. *)
Fixpoint replace_str (pat s : jsstring) : jsstring :=
  if startsWith s pat then skipn (List.length pat) s
  else match s with
       | [] => []
       | c :: s' => c :: replace_str pat s'
       end.

(** [s.includes(sub)] *)
Fixpoint includes (s sub : jsstring) : bool :=
  startsWith s sub ||
  match s with
  | [] => false
  | _ :: s' => includes s' sub
  end.

(** [toLowerCase] on texts of ASCII characters, where every engine agrees. *)
Definition ascii_toLowerCase (s : jsstring) : jsstring :=
  map (fun c => if ((65 <=? c) && (c <=? 90))%N then (c + 32)%N else c) s.

(* ================================================================= *)
(** ** Routing *)

Inductive ViewName := view_list | view_view | view_upload.

(** The routing state of the component. *)
Record Route := mkRoute {
  view : ViewName;
  activeProjectId : option jsstring;
  editingProject : value
}.

(** [handleHash], with [h] the fragment read from [window.location.hash]. *)
Definition handleHash (h : jsstring) (rt : Route) : Route :=
  if startsWith h (lit "#/project/") then
    mkRoute view_view (Some (replace_str (lit "#/project/") h)) (editingProject rt)
  else if jsstring_eqb h (lit "#/upload") then
    mkRoute view_upload None
            (if is_entry (editingProject rt) then VNull else editingProject rt)
  else
    mkRoute view_list None VNull.

(** The fragment a click on a card navigates to:
    [navigate(`#/project/${p.id}`)]. *)
Definition project_hash (p : Entry) : jsstring := lit "#/project/" ++ id p.

(** The characters no URL encoding touches: letters, digits and [- . _ ~]. *)
Definition unreserved (c : N) : bool :=
  (is_letter c || (48 <=? c) && (c <=? 57)
   || (c =? 45) || (c =? 46) || (c =? 95) || (c =? 126))%N.

(** What [window.location.hash] reads after [navigate(path)] has assigned
    it, for a path made of [#] and then unreserved characters and slashes,
    which the browser hands back as assigned; [None] for any other path,
    where the browser's percent-encoding decides what is read. *)
Definition location_hash_after (path : jsstring) : option jsstring :=
  match path with
  | c :: rest =>
      if ((c =? 35)%N && forallb (fun x => unreserved x || (x =? 47)%N) rest)%bool
      then Some path else None
  | [] => None
  end.

(* ================================================================= *)
(** ** View logic *)

(** What [projects.find(p => p.id === activeProjectId)] gives: reading [.id]
    of a slot that holds no object throws. *)
Inductive find_result :=
| FindThrew
| FindUndefined
| Found (v : value).

Fixpoint find_active (ps : list value) (target : option jsstring) : find_result :=
  match ps with
  | [] => FindUndefined
  | VObj r p :: ps' =>
      match target with
      | Some i => if jsstring_eqb (id p) i then Found (VObj r p)
                  else find_active ps' target
      | None => find_active ps' target
      end
  | _ :: _ => FindThrew
  end.

Section Search.
(** [String.prototype.toLowerCase], whose case tables are the engine's. *)
Variable toLowerCase : jsstring -> jsstring.

(** The predicate of [filteredProjects]. *)
Definition matches_search (p : Entry) (searchTerm : jsstring) : bool :=
  includes (toLowerCase (title p)) (toLowerCase searchTerm)
  || includes (toLowerCase (description p)) (toLowerCase searchTerm).

(** [projects.filter(p => ...)]; [None] when reading [.title] throws. *)
Fixpoint filteredProjects (ps : list value) (searchTerm : jsstring)
  : option (list value) :=
  match ps with
  | [] => Some []
  | VObj r p :: ps' =>
      match filteredProjects ps' searchTerm with
      | Some rest =>
          Some (if matches_search p searchTerm then VObj r p :: rest else rest)
      | None => None
      end
  | _ :: _ => None
  end.

Inductive Screen :=
| ViewThrew
| CheckingAccess
| ViewerScreen (project : value)
| CreatorAccessOnly
| UploadFormScreen (initialData : value)
| NoProjectsYet
| ListScreen (cards : list value).

(** The view logic of [ProjectHub]: [activeProject] and [filteredProjects]
    are computed first, then the screen is chosen. *)
Definition view_logic (authLoading : bool) (st : State) (rt : Route)
    (searchTerm : jsstring) : Screen :=
  match find_active (projects st) (activeProjectId rt) with
  | FindThrew => ViewThrew
  | activeProject =>
      match filteredProjects (projects st) searchTerm with
      | None => ViewThrew
      | Some cards =>
          if authLoading then CheckingAccess
          else
            match view rt, activeProject with
            | view_view, Found project => ViewerScreen project
            | view_upload, _ =>
                if isCreator st then UploadFormScreen (editingProject rt)
                else CreatorAccessOnly
            | _, _ =>
                match projects st with
                | [] => NoProjectsYet
                | _ :: _ => ListScreen cards
                end
            end
      end
  end.
End Search.

(* ================================================================= *)
(** ** Saving an entry *)

Module UploadForm.

(** The four fields of the form. *)
Record Form := mkForm {
  title : jsstring;
  desc : jsstring;
  code : jsstring;
  color : jsstring
}.

End UploadForm.

(** The effect of [UploadForm] that fills the form from [initialData]:
    [initialData.title || ''] and so on, [initialData.color || 'indigo']. *)
Definition populate (initialData : value) : UploadForm.Form :=
  match initialData with
  | VObj _ e =>
      UploadForm.mkForm (title e) (description e) (code e) (color_or_default e)
  | _ => UploadForm.mkForm [] [] [] (lit "indigo")
  end.

(** What [handleSave] sends to the store; the timestamps are the server's. *)
Inductive StoreWrite :=
| UpdateDoc (docId title description code color : jsstring)
| AddDoc (title description code color : jsstring) (orderIndex : nat)
         (authorId : jsstring).

(** [handleSave]; [uid] is [user.uid], and [None] is the throw on reading it
    when no user is signed in. *)
Definition handleSave (editing : value) (uid : option jsstring)
    (ps : list value) (title desc code color : jsstring) : option StoreWrite :=
  match editing with
  | VObj _ e => Some (UpdateDoc (id e) title desc (cleanCode code) color)
  | _ =>
      match uid with
      | Some u => Some (AddDoc title desc (cleanCode code) color (List.length ps) u)
      | None => None
      end
  end.

(** [onSubmit(title, desc, code, color)] from the form's [handleSubmit]. *)
Definition submit (editing : value) (uid : option jsstring) (ps : list value)
    (f : UploadForm.Form) : option StoreWrite :=
  handleSave editing uid ps (UploadForm.title f) (UploadForm.desc f)
             (UploadForm.code f) (UploadForm.color f).

(** The document an [AddDoc] creates, as a later push delivers it, under the
    id and the timestamp the store gave it. *)
Definition created (w : StoreWrite) (docId : jsstring) (ts : option Z)
  : option Entry :=
  match w with
  | AddDoc t d c col oi _ =>
      Some (mkEntry docId t d c (Some col) (Some (Z.of_nat oi)) ts)
  | UpdateDoc _ _ _ _ _ => None
  end.

(* ================================================================= *)
(** ** The earlier listener and uploader *)

Module Legacy.

(** The comparator of the earlier listener:
    [(a, b) => (b.createdAt?.seconds || 0) - (a.createdAt?.seconds || 0)]. *)
Definition compareProjects (a b : Entry) : Z := (seconds b - seconds a)%Z.

Definition onSnapshot (docs : list Entry) : list Entry :=
  sort compareProjects docs.

(** The document the earlier [handleUpload] adds: no [color], no
    [orderIndex]. *)
Definition handleUpload (docId title desc code : jsstring) (ts : option Z)
  : Entry :=
  mkEntry docId title desc (cleanCode code) None None ts.

End Legacy.

(* ================================================================= *)
(** ** After a commit *)

(** [batch.update(ref, { orderIndex: index })] on one document. *)
Definition with_orderIndex (e : Entry) (index : nat) : Entry :=
  mkEntry (id e) (title e) (description e) (code e) (color e)
          (Some (Z.of_nat index)) (createdAt e).

(** The entries of the working list once the updates [us] are applied, slot
    by slot. *)
Definition committed (es : list Entry) (us : list (jsstring * nat))
  : list Entry :=
  map (fun eu => with_orderIndex (fst eu) (snd (snd eu))) (combine es us).

(** Commits among the effects, and drag ends among the events. *)
Definition is_commit (f : Effect) : bool :=
  match f with BatchCommit _ => true | _ => false end.

Definition is_drag_end (ev : Event) : bool :=
  match ev with DragEnd _ => true | _ => false end.

(** The addresses of the objects a list holds. *)
Fixpoint refs (ps : list value) : list nat :=
  match ps with
  | [] => []
  | VObj r _ :: ps' => r :: refs ps'
  | _ :: ps' => refs ps'
  end.

(** Every object has an address of its own, below the next free one. *)
Definition well_formed (st : State) : Prop :=
  NoDup (refs (projects st)) /\
  Forall (fun r => r < next_ref st) (refs (projects st)) /\
  Forall (fun r => r < next_ref st) (refs [draggedItem st]).

(* ================================================================= *)
(** * Properties of the sanitizer *)

Module SanitizerFacts.

Lemma jsstring_eqb_eq (a b : jsstring) : jsstring_eqb a b = true <-> a = b.
Proof.
  unfold jsstring_eqb. destruct (list_eq_dec N.eq_dec a b); split; congruence.
Qed.

Lemma jsstring_eqb_neq (a b : jsstring) : jsstring_eqb a b = false <-> a <> b.
Proof.
  unfold jsstring_eqb. destruct (list_eq_dec N.eq_dec a b); split; congruence.
Qed.

Lemma replace_from_eq (re : pattern) (b : bool) (s : jsstring) :
  replace_from re b s =
  match re b s with
  | Some n => skipn n s
  | None => match s with [] => [] | c :: s' => c :: replace_from re false s' end
  end.
Proof. destruct s; reflexivity. Qed.

(** *** The run of letters *)

Lemma letters_split (r : jsstring) :
  Forall (fun c => is_letter c = true) (firstn (letters r) r).
Proof.
  induction r as [|c r IH]; simpl; [constructor|].
  destruct (is_letter c) eqn:E; simpl; [constructor; assumption | constructor].
Qed.

Lemma letters_app (ls rest : jsstring) :
  Forall (fun c => is_letter c = true) ls ->
  letters (ls ++ LF :: rest) = List.length ls.
Proof.
  induction 1 as [|c ls Hc _ IH]; simpl.
  - reflexivity.
  - rewrite Hc, IH. reflexivity.
Qed.

(** *** The opening pattern *)

Lemma replace_from_open_false (s : jsstring) : replace_from re_open false s = s.
Proof.
  induction s as [|c s IH]; simpl; [reflexivity | now rewrite IH].
Qed.

Lemma re_open_some (s : jsstring) (n : nat) :
  re_open true s = Some n ->
  exists m, opening_marker m /\ s = m ++ skipn n s /\ List.length m = n.
Proof.
  unfold re_open.
  destruct s as [|c1 [|c2 [|c3 r]]]; try discriminate.
  destruct ((c1 =? backtick)%N && (c2 =? backtick)%N && (c3 =? backtick)%N) eqn:E;
    [|discriminate].
  apply andb_prop in E as [E E3]. apply andb_prop in E as [E1 E2].
  apply N.eqb_eq in E1, E2, E3. subst c1 c2 c3.
  destruct (skipn (letters r) r) as [|c rest] eqn:Hs; [discriminate|].
  destruct (c =? LF)%N eqn:Ec; [|discriminate].
  apply N.eqb_eq in Ec. subst c. intros [= <-].
  exists (fence ++ firstn (letters r) r ++ [LF]). split; [|split].
  - exists (firstn (letters r) r). split; [apply letters_split | reflexivity].
  - assert (Hr : r = firstn (letters r) r ++ LF :: rest)
      by (rewrite <- Hs; symmetry; apply firstn_skipn).
    assert (Hk : skipn (letters r + 1) r = rest).
    { rewrite Nat.add_comm, <- skipn_skipn, Hs. reflexivity. }
    unfold fence. simpl. rewrite <- app_assoc. simpl.
    rewrite Hk, <- Hr. reflexivity.
  - assert (Hl : List.length (firstn (letters r) r) = letters r).
    { apply firstn_length_le.
      assert (H := length_skipn (letters r) r).
      rewrite Hs in H. simpl in H. lia. }
    unfold fence. simpl. rewrite length_app, Hl. simpl. lia.
Qed.

Lemma re_open_marker (m rest : jsstring) :
  opening_marker m -> re_open true (m ++ rest) = Some (List.length m).
Proof.
  intros (ls & Hls & ->). unfold fence. simpl.
  rewrite <- app_assoc. simpl.
  rewrite (letters_app ls rest Hls).
  rewrite skipn_app, Nat.sub_diag, skipn_all. simpl.
  rewrite length_app. simpl. reflexivity.
Qed.

Lemma replace_open_cases (s : jsstring) :
  (re_open true s = None /\ replace re_open s = s) \/
  (exists m, opening_marker m /\ s = m ++ replace re_open s).
Proof.
  unfold replace.
  destruct (re_open true s) as [n|] eqn:E.
  - right. destruct (re_open_some s n E) as (m & Hm & Hs & _).
    exists m. split; [assumption|].
    rewrite replace_from_eq, E. exact Hs.
  - left. split; [reflexivity|].
    rewrite replace_from_eq, E.
    destruct s as [|c s]; [reflexivity|].
    now rewrite replace_from_open_false.
Qed.

Lemma replace_open_marker (m rest : jsstring) :
  opening_marker m -> replace re_open (m ++ rest) = rest.
Proof.
  intros Hm. unfold replace.
  rewrite replace_from_eq, (re_open_marker m rest Hm).
  rewrite skipn_app, Nat.sub_diag, skipn_all. reflexivity.
Qed.

(** *** The closing pattern *)

Lemma re_close_other (b : bool) (s : jsstring) :
  s <> fence -> re_close b s = None.
Proof.
  intros H. unfold re_close. apply jsstring_eqb_neq in H. now rewrite H.
Qed.

Lemma replace_close_cases (b : bool) (s : jsstring) :
  (replace_from re_close b s = s /\ ~ ends_with_fence s) \/
  s = replace_from re_close b s ++ fence.
Proof.
  revert b. induction s as [|c s IH]; intros b.
  - left. split; [reflexivity|]. intros [p Hp].
    destruct p; discriminate.
  - destruct (list_eq_dec N.eq_dec (c :: s) fence) as [E|E].
    + right. rewrite E. reflexivity.
    + rewrite replace_from_eq, (re_close_other b (c :: s) E).
      destruct (IH false) as [[H1 H2] | H].
      * left. split; [now rewrite H1|].
        intros [p Hp]. destruct p as [|c' p].
        -- apply E. exact Hp.
        -- apply H2. exists p. now inversion Hp.
      * right. rewrite <- app_comm_cons. f_equal. exact H.
Qed.

Lemma replace_close_fence (b : bool) (p : jsstring) :
  replace_from re_close b (p ++ fence) = p.
Proof.
  revert b. induction p as [|c p IH]; intros b.
  - reflexivity.
  - rewrite <- app_comm_cons, replace_from_eq, re_close_other.
    + now rewrite IH.
    + intros E. apply (f_equal (@List.length _)) in E.
      simpl in E. rewrite length_app in E. simpl in E. lia.
Qed.

(** *** Trimming *)

Lemma trimStart_split (s : jsstring) :
  exists ws, blank ws /\ s = ws ++ trimStart s.
Proof.
  induction s as [|c s (ws & Hws & Hs)]; simpl.
  - exists []. split; [constructor | reflexivity].
  - destruct (is_ws c) eqn:E.
    + exists (c :: ws). split; [constructor; assumption|]. simpl. now rewrite <- Hs.
    + exists []. split; [constructor | reflexivity].
Qed.

Lemma trimEnd_split (s : jsstring) :
  exists ws, blank ws /\ s = trimEnd s ++ ws.
Proof.
  unfold trimEnd. destruct (trimStart_split (rev s)) as (ws & Hws & Hs).
  exists (rev ws). split.
  - apply Forall_rev. exact Hws.
  - rewrite <- rev_app_distr, <- Hs. symmetry. apply rev_involutive.
Qed.

Lemma trimStart_clean_head (s : jsstring) : clean_head (trimStart s).
Proof.
  induction s as [|c s IH]; simpl; [exact I|].
  destruct (is_ws c) eqn:E; [exact IH | exact E].
Qed.

Lemma clean_head_trimStart (s : jsstring) : clean_head s -> trimStart s = s.
Proof.
  destruct s as [|c s]; simpl; [reflexivity|]. now intros ->.
Qed.

Lemma trim_fixed (x : jsstring) : trim (trim x) = trim x.
Proof.
  unfold trim.
  assert (Hhead : clean_head (trimEnd (trimStart x))).
  { destruct (trimEnd_split (trimStart x)) as (ws & _ & Hs).
    assert (Hc := trimStart_clean_head x). rewrite Hs in Hc.
    destruct (trimEnd (trimStart x)); [exact I | exact Hc]. }
  rewrite (clean_head_trimStart _ Hhead).
  unfold trimEnd. rewrite rev_involutive.
  rewrite (clean_head_trimStart _ (trimStart_clean_head _)). reflexivity.
Qed.

Lemma trimStart_length (s : jsstring) : List.length (trimStart s) <= List.length s.
Proof.
  destruct (trimStart_split s) as (ws & _ & Hs).
  rewrite Hs at 2. rewrite length_app. lia.
Qed.

Lemma trim_length (s : jsstring) : List.length (trim s) <= List.length s.
Proof.
  unfold trim, trimEnd. rewrite length_rev.
  etransitivity; [apply trimStart_length|]. rewrite length_rev.
  apply trimStart_length.
Qed.

Lemma trim_clean_head (x : jsstring) : clean_head (trim x).
Proof.
  unfold trim.
  destruct (trimEnd_split (trimStart x)) as (ws & _ & Hs).
  assert (Hc := trimStart_clean_head x). rewrite Hs in Hc.
  destruct (trimEnd (trimStart x)); [exact I | exact Hc].
Qed.

Lemma trim_clean_last (x : jsstring) : clean_head (rev (trim x)).
Proof.
  unfold trim, trimEnd. rewrite rev_involutive. apply trimStart_clean_head.
Qed.

(** *** Each stage can only shorten its input *)

Lemma opening_marker_length (m : jsstring) :
  opening_marker m -> 4 <= List.length m.
Proof.
  intros (ls & _ & ->). unfold fence. simpl. rewrite length_app. simpl. lia.
Qed.

Lemma replace_open_length (s : jsstring) :
  List.length (replace re_open s) <= List.length s.
Proof.
  destruct (replace_open_cases s) as [[_ H] | (m & _ & H)].
  - rewrite H. lia.
  - rewrite H at 2. rewrite length_app. lia.
Qed.

Lemma replace_close_length (s : jsstring) :
  List.length (replace re_close s) <= List.length s.
Proof.
  unfold replace. destruct (replace_close_cases true s) as [[H _] | H].
  - rewrite H. lia.
  - rewrite H at 2. rewrite length_app. lia.
Qed.

Lemma no_opening_marker (s : jsstring) :
  re_open true s = None -> ~ starts_with_opening_marker s.
Proof.
  intros E (m & rest & Hm & ->).
  rewrite (re_open_marker m rest Hm) in E. discriminate.
Qed.

End SanitizerFacts.

Import SanitizerFacts.

(** C8: for every input, what [cleanCode] removes is an opening fence line at
    the very start (removed exactly when the input starts with one), blank
    characters around the payload, and a closing fence at the very end
    (removed exactly when what follows the opening line ends with one); the
    payload between them is returned as it stands, with no blank character at
    either end.  The fenced paragraph of the specification yields its
    paragraph. *)
Theorem cleanCode_strips_only_wrappers :
  (forall s : jsstring,
     exists opening ws1 ws2 closing,
       s = opening ++ ws1 ++ cleanCode s ++ ws2 ++ closing /\
       ((opening = [] /\ ~ starts_with_opening_marker s) \/ opening_marker opening) /\
       ((closing = [] /\ ~ ends_with_fence (ws1 ++ cleanCode s ++ ws2)) \/
        closing = fence) /\
       blank ws1 /\ blank ws2 /\
       clean_head (cleanCode s) /\ clean_head (rev (cleanCode s))) /\
  cleanCode (lit ("```html" ++ nl ++ "<p>x</p>" ++ nl ++ "```")) = lit "<p>x</p>".
Proof.
  split; [|vm_compute; reflexivity].
  intros s. unfold cleanCode.
  set (a := replace re_open s).
  set (b := replace re_close a).
  destruct (trimStart_split b) as (ws1 & Hws1 & Hb).
  destruct (trimEnd_split (trimStart b)) as (ws2 & Hws2 & Hc).
  fold (trim b) in Hc.
  assert (Hpay : b = ws1 ++ trim b ++ ws2) by (rewrite <- Hc; exact Hb).
  assert (Hopen :
    exists opening, s = opening ++ a /\
      ((opening = [] /\ ~ starts_with_opening_marker s) \/ opening_marker opening)).
  { destruct (replace_open_cases s) as [[E H] | (m & Hm & H)].
    - exists []. split; [symmetry; exact H|]. left. split; [reflexivity|].
      now apply no_opening_marker.
    - exists m. split; [exact H | right; exact Hm]. }
  assert (Hclose :
    exists closing, a = b ++ closing /\
      ((closing = [] /\ ~ ends_with_fence b) \/ closing = fence)).
  { destruct (replace_close_cases true a) as [[H Hn] | H].
    - exists []. split; [rewrite app_nil_r; symmetry; exact H|].
      left. split; [reflexivity|]. unfold b, replace. now rewrite H.
    - exists fence. split; [exact H | right; reflexivity]. }
  destruct Hopen as (opening & Hs & Ho).
  destruct Hclose as (closing & Ha & Hcl).
  exists opening, ws1, ws2, closing. repeat split.
  - transitivity (opening ++ (ws1 ++ trim b ++ ws2) ++ closing).
    + rewrite <- Hpay, <- Ha. exact Hs.
    + now rewrite <- !app_assoc.
  - exact Ho.
  - rewrite <- Hpay. exact Hcl.
  - exact Hws1.
  - exact Hws2.
  - apply trim_clean_head.
  - apply trim_clean_last.
Qed.

(** A fenced block whose payload is itself a fenced block loses one more
    layer at each pass: sanitizing is not idempotent on it. *)
Lemma cleanCode_not_idempotent :
  let s := lit ("```md" ++ nl ++ "```js" ++ nl ++ "code" ++ nl ++ "```" ++ nl ++ "```") in
  cleanCode s = lit ("```js" ++ nl ++ "code" ++ nl ++ "```") /\
  cleanCode (cleanCode s) = lit "code" /\
  jsstring_eqb (cleanCode (cleanCode s)) (cleanCode s) = false.
Proof. vm_compute. repeat split. Qed.

Lemma cleanCode_fixed_stages (t : jsstring) :
  cleanCode t = t -> replace re_open t = t /\ replace re_close t = t.
Proof.
  intros H. apply (f_equal (@List.length _)) in H. unfold cleanCode in H.
  assert (H1 := trim_length (replace re_close (replace re_open t))).
  assert (H2 := replace_close_length (replace re_open t)).
  assert (H3 := replace_open_length t).
  assert (Ho : replace re_open t = t).
  { destruct (replace_open_cases t) as [[_ E] | (m & Hm & E)]; [exact E|].
    apply opening_marker_length in Hm.
    apply (f_equal (@List.length _)) in E. rewrite length_app in E. lia. }
  split; [exact Ho|]. rewrite Ho in *.
  unfold replace in *.
  destruct (replace_close_cases true t) as [[E _] | E]; [exact E|].
  apply (f_equal (@List.length _)) in E. rewrite length_app in E.
  simpl in E. lia.
Qed.

(** C4, amended: sanitizing the sanitized text returns it unchanged exactly
    when that text does not itself start with an opening fence line and does
    not end with a closing fence; a second pass strips such a marker again. *)
Theorem cleanCode_idempotent_iff (s : jsstring) :
  cleanCode (cleanCode s) = cleanCode s <->
  ~ starts_with_opening_marker (cleanCode s) /\ ~ ends_with_fence (cleanCode s).
Proof.
  set (t := cleanCode s). split.
  - intros H. destruct (cleanCode_fixed_stages t H) as [Ho Hc]. split.
    + intros (m & rest & Hm & Ht).
      assert (E := replace_open_marker m rest Hm). rewrite <- Ht, Ho in E.
      apply opening_marker_length in Hm.
      apply (f_equal (@List.length _)) in Ht. rewrite length_app, E in Ht. lia.
    + intros (p & Ht).
      assert (E := replace_close_fence true p). rewrite <- Ht in E.
      unfold replace in Hc. rewrite Hc in E.
      apply (f_equal (@List.length _)) in Ht. rewrite length_app, E in Ht.
      simpl in Ht. lia.
  - intros [Hno Hnc].
    assert (Ho : replace re_open t = t).
    { destruct (replace_open_cases t) as [[_ E] | (m & Hm & E)]; [exact E|].
      exfalso. apply Hno. exists m, (replace re_open t). split; assumption. }
    assert (Hc : replace re_close t = t).
    { unfold replace. destruct (replace_close_cases true t) as [[E _] | E]; [exact E|].
      exfalso. apply Hnc. exists (replace_from re_close true t). exact E. }
    unfold cleanCode at 1. rewrite Ho, Hc.
    unfold t, cleanCode. apply trim_fixed.
Qed.

(* ================================================================= *)
(** * The accent palette *)

Module PaletteFacts.

Lemma get_absent (o : list (jsstring * Theme)) (k : jsstring) :
  ~ In k (map fst o) -> get o k = None.
Proof.
  induction o as [|[k' t] o IH]; simpl; [reflexivity|].
  intros H. destruct (jsstring_eqb k' k) eqn:E.
  - apply jsstring_eqb_eq in E. exfalso. apply H. now left.
  - apply IH. intros Hin. apply H. now right.
Qed.

Lemma get_present (o : list (jsstring * Theme)) (k : jsstring) (t : Theme) :
  NoDup (map fst o) -> In (k, t) o -> get o k = Some t.
Proof.
  induction o as [|[k' t'] o IH]; simpl; [contradiction|].
  intros Hnd [H | H].
  - inversion H; subst.
    assert (E : jsstring_eqb k k = true) by now apply jsstring_eqb_eq.
    now rewrite E.
  - inversion Hnd as [|? ? Hk Hnd']; subst.
    destruct (jsstring_eqb k' k) eqn:E.
    + apply jsstring_eqb_eq in E. subst k'. exfalso. apply Hk.
      change k with (fst (k, t)). now apply in_map.
    + now apply IH.
Qed.

Lemma COLORS_keys_distinct : NoDup (map fst COLORS).
Proof.
  apply (NoDup_count_occ' (list_eq_dec N.eq_dec)).
  intros k Hk. simpl in Hk.
  repeat (destruct Hk as [<- | Hk]; [vm_compute; reflexivity|]).
  contradiction.
Qed.

Lemma COLORS_keys_nonempty (k : jsstring) : In k (map fst COLORS) -> k <> [].
Proof.
  simpl. intros H.
  repeat (destruct H as [<- | H]; [discriminate|]).
  contradiction.
Qed.

End PaletteFacts.

Import PaletteFacts.

(** A stored color outside the palette does not fall back to indigo: the
    lookup finds no palette entry. *)
Lemma unrecognized_color_has_no_theme :
  let p := mkEntry (lit "p1") (lit "T") (lit "D") (lit "<p>x</p>")
                   (Some (lit "teal")) (Some 0%Z) (Some 1%Z) in
  color_or_default p = lit "teal" /\ theme p = None.
Proof. vm_compute. split; reflexivity. Qed.

(** C9, amended: an entry whose color field is absent (or empty) resolves to
    the first palette entry, indigo; an entry whose color is a palette key
    resolves to that key's own entry; an entry whose color is any other
    value resolves to no palette entry. *)
Theorem theme_resolution (p : Entry) :
  hd_error COLORS = Some (lit "indigo", indigo) /\
  (color p = None \/ color p = Some [] -> theme p = Some indigo) /\
  (forall k t, color p = Some k -> In (k, t) COLORS -> theme p = Some t) /\
  (forall k, color p = Some k -> k <> [] -> ~ In k (map fst COLORS) ->
             theme p = None).
Proof.
  split; [reflexivity|]. unfold theme, color_or_default.
  split; [|split].
  - intros [-> | ->]; reflexivity.
  - intros k t -> Hin.
    assert (Hk : k <> []).
    { apply COLORS_keys_nonempty. change k with (fst (k, t)). now apply in_map. }
    destruct k as [|c k]; [congruence|].
    apply get_present; [apply COLORS_keys_distinct | exact Hin].
  - intros k -> Hk Hout.
    destruct k as [|c k]; [congruence|].
    now apply get_absent.
Qed.

(* ================================================================= *)
(** * The viewer's document *)

(** The script the viewer writes first is one script element whose body
    assigns the handler, and the handler's expression evaluates to [panel]. *)
Lemma script_installs_handler :
  script = lit "<script>window.onerror = function(m){document.body.innerHTML="
           ++ error_panel ++ lit "}</script>" /\
  exists before after,
    error_panel = lit "'" ++ before ++ lit "'+m+'" ++ after ++ lit "'" /\
    forall m, panel m = before ++ m ++ after.
Proof.
  split; [vm_compute; reflexivity|].
  exists (lit ("<div style=" ++ dq ++ "color:red;padding:20px;font-family:sans-serif"
               ++ dq ++ "><h3>Runtime Error</h3>")), (lit "</div>").
  split; [vm_compute; reflexivity | intros m; reflexivity].
Qed.


(* ================================================================= *)
(** * The snapshot listener *)

Module SortFacts.

Section Generic.
Context {A : Type} (cmp : A -> A -> Z).

Lemma insert_perm (x : A) (l : list A) : Permutation (x :: l) (insert cmp x l).
Proof.
  induction l as [|y l IH]; simpl; [reflexivity|].
  destruct (cmp x y <=? 0)%Z; [reflexivity|].
  rewrite perm_swap. now constructor.
Qed.

Lemma sort_perm (l : list A) : Permutation l (sort cmp l).
Proof.
  induction l as [|x l IH]; simpl; [constructor|].
  rewrite <- insert_perm. now constructor.
Qed.

Lemma sort_length (l : list A) : List.length (sort cmp l) = List.length l.
Proof. symmetry. apply Permutation_length, sort_perm. Qed.

(** When the comparator agrees with an integer key on the elements at
    hand, the result ascends in that key. *)
Variable key : A -> Z.

Lemma insert_ascending (x : A) (l : list A) :
  (forall y, In y l -> (cmp x y <=? 0)%Z = (key x <=? key y)%Z) ->
  ascending key l -> ascending key (insert cmp x l).
Proof.
  induction l as [|y l IH]; intros Hcmp Hs; simpl.
  - repeat constructor.
  - inversion Hs as [|? ? Hs' Hall]; subst.
    destruct (cmp x y <=? 0)%Z eqn:E.
    + rewrite (Hcmp y (or_introl eq_refl)) in E. apply Z.leb_le in E.
      constructor; [exact Hs|]. constructor; [exact E|].
      eapply Forall_impl; [|exact Hall]. simpl. intros; lia.
    + rewrite (Hcmp y (or_introl eq_refl)) in E. apply Z.leb_gt in E.
      constructor.
      * apply IH; [|exact Hs']. intros z Hz. apply Hcmp. now right.
      * apply (Permutation_Forall (insert_perm x l)).
        constructor; [lia | exact Hall].
Qed.

Lemma sort_ascending (l : list A) :
  (forall x y, In x l -> In y l -> (cmp x y <=? 0)%Z = (key x <=? key y)%Z) ->
  ascending key (sort cmp l).
Proof.
  induction l as [|x l IH]; intros Hcmp; simpl.
  - constructor.
  - apply insert_ascending.
    + intros y Hy. apply Hcmp; [now left|].
      right. apply (Permutation_in _ (Permutation_sym (sort_perm l)) Hy).
    + apply IH. intros a b Ha Hb. apply Hcmp; now right.
Qed.
End Generic.

Lemma strongly_sorted_weaken {A : Type} (R R' : A -> A -> Prop) (l : list A) :
  (forall x y, R x y -> R' x y) -> StronglySorted R l -> StronglySorted R' l.
Proof.
  intros HR. induction 1 as [|x l _ IH Hx]; constructor; [exact IH|].
  eapply Forall_impl; [|exact Hx]. apply HR.
Qed.

(** Sorting objects by a comparator on their fields sorts the fields. *)
Lemma sort_map {A B : Type} (f : A -> B) (cmp : B -> B -> Z) (l : list A) :
  map f (sort (fun a b => cmp (f a) (f b)) l) = sort cmp (map f l).
Proof.
  induction l as [|x l IH]; simpl; [reflexivity|].
  rewrite <- IH. generalize (sort (fun a b => cmp (f a) (f b)) l).
  intros s. induction s as [|y s IHs]; simpl; [reflexivity|].
  destruct (cmp (f x) (f y) <=? 0)%Z; simpl; [reflexivity | now rewrite IHs].
Qed.

Lemma fresh_entries (n : nat) (docs : list Entry) : map snd (fresh n docs) = docs.
Proof.
  unfold fresh. revert n. induction docs as [|d docs IH]; intros n; simpl.
  - reflexivity.
  - now rewrite IH.
Qed.

Lemma fresh_refs (n : nat) (docs : list Entry) (o : obj) :
  In o (fresh n docs) -> n <= fst o < n + List.length docs.
Proof.
  unfold fresh. destruct o as [r e]. intros H.
  apply in_combine_l in H. apply in_seq in H. simpl. lia.
Qed.

Lemma entries_to_value (l : list obj) : entries (map to_value l) = map snd l.
Proof.
  induction l as [|[r e] l IH]; simpl; [reflexivity | now rewrite IH].
Qed.

Lemma ids_entries (ps : list value) : ids ps = map id (entries ps).
Proof.
  induction ps as [|v ps IH]; [reflexivity|].
  destruct v; simpl; [assumption | assumption | now rewrite IH].
Qed.

(** What a push leaves in [projects]: the batch in comparator order. *)
Lemma onSnapshot_entries (st : State) (docs : list Entry) :
  entries (projects (onSnapshot st docs)) = sort compareProjects docs.
Proof.
  unfold onSnapshot. simpl. rewrite entries_to_value.
  rewrite (sort_map snd compareProjects), fresh_entries. reflexivity.
Qed.

End SortFacts.

Import SortFacts.

(** *** Consistent comparators *)

Lemma insert_ordered {A : Type} (cmp : A -> A -> Z) (l0 s : list A) (x : A) :
  consistent cmp l0 -> In x l0 -> incl s l0 ->
  StronglySorted (fun a b => (cmp a b <= 0)%Z) s ->
  StronglySorted (fun a b => (cmp a b <= 0)%Z) (insert cmp x s).
Proof.
  intros Hc Hx. induction s as [|y s IH]; intros Hin Hs; simpl.
  - repeat constructor.
  - assert (Hy : In y l0) by (apply Hin; now left).
    assert (Hin' : incl s l0) by (intros z Hz; apply Hin; now right).
    inversion Hs as [|? ? Hs' Hall]; subst.
    destruct (cmp x y <=? 0)%Z eqn:E.
    + apply Z.leb_le in E. constructor; [exact Hs|]. constructor; [exact E|].
      rewrite Forall_forall in *. intros z Hz.
      destruct (Hc x y z Hx Hy (Hin' z Hz)) as [_ Ht]. apply Ht; auto.
    + apply Z.leb_gt in E. constructor; [now apply IH|].
      apply (Permutation_Forall (insert_perm cmp x s)).
      constructor; [|exact Hall].
      destruct (Hc y x x Hy Hx Hx) as [Hsw _]. lia.
Qed.

(** For a consistent comparator the result is in the comparator's order:
    no entry stands before one it compares greater than. *)
Lemma sort_ordered {A : Type} (cmp : A -> A -> Z) (l : list A) :
  consistent cmp l -> StronglySorted (fun a b => (cmp a b <= 0)%Z) (sort cmp l).
Proof.
  intros Hc.
  assert (H : forall l', incl l' l ->
            StronglySorted (fun a b => (cmp a b <= 0)%Z) (sort cmp l')).
  { induction l' as [|x l' IH]; intros Hin; simpl; [constructor|].
    apply (insert_ordered cmp l).
    - exact Hc.
    - apply Hin. now left.
    - intros z Hz. apply Hin. right.
      apply (Permutation_in _ (Permutation_sym (sort_perm cmp l')) Hz).
    - apply IH. intros z Hz. apply Hin. now right. }
  apply H, incl_refl.
Qed.

(** For a consistent comparator the result is stable: the entries that tie
    with a given one stand in the order of the batch. *)
Lemma insert_ties {A : Type} (cmp : A -> A -> Z) (l0 s : list A) (x a : A) :
  consistent cmp l0 -> In x l0 -> In a l0 -> incl s l0 ->
  filter (fun y => (cmp x y =? 0)%Z) (insert cmp a s)
  = filter (fun y => (cmp x y =? 0)%Z) (a :: s).
Proof.
  intros Hc Hx Ha. induction s as [|y s IH]; intros Hin; [reflexivity|].
  assert (Hy : In y l0) by (apply Hin; now left).
  assert (Hin' : incl s l0) by (intros z Hz; apply Hin; now right).
  cbn [insert]. destruct (cmp a y <=? 0)%Z eqn:E; [reflexivity|].
  apply Z.leb_gt in E.
  cbn [filter]. rewrite (IH Hin'). cbn [filter].
  destruct (cmp x a =? 0)%Z eqn:Exa; [|reflexivity].
  destruct (cmp x y =? 0)%Z eqn:Exy; [|reflexivity].
  exfalso. apply Z.eqb_eq in Exa, Exy.
  destruct (Hc a x y Ha Hx Hy) as [Hsw Ht].
  destruct (Hc x a a Hx Ha Ha) as [Hsw' _].
  assert (cmp a x <= 0)%Z by lia.
  assert (cmp a y <= 0)%Z by (apply Ht; lia). lia.
Qed.

Lemma sort_stable {A : Type} (cmp : A -> A -> Z) (l : list A) (x : A) :
  consistent cmp l -> In x l ->
  filter (fun y => (cmp x y =? 0)%Z) (sort cmp l)
  = filter (fun y => (cmp x y =? 0)%Z) l.
Proof.
  intros Hc Hx.
  assert (H : forall l', incl l' l ->
            filter (fun y => (cmp x y =? 0)%Z) (sort cmp l')
            = filter (fun y => (cmp x y =? 0)%Z) l').
  { induction l' as [|a l' IH]; intros Hin; [reflexivity|].
    assert (Hin' : incl l' l) by (intros z Hz; apply Hin; now right).
    cbn [sort fold_right]. fold (sort cmp l').
    rewrite (insert_ties cmp l (sort cmp l') x a Hc Hx).
    - cbn [filter]. now rewrite (IH Hin').
    - apply Hin. now left.
    - intros z Hz. apply Hin'.
      apply (Permutation_in _ (Permutation_sym (sort_perm cmp l')) Hz). }
  apply H, incl_refl.
Qed.

(** The comparator of the listener is consistent on a batch in which every
    entry defines [orderIndex], and on one in which none does. *)
Lemma indexed_batch_consistent (docs : list Entry) :
  Forall (fun e => orderIndex e <> None) docs -> consistent compareProjects docs.
Proof.
  intros Hall a b c Ha Hb Hc. rewrite Forall_forall in Hall.
  assert (Ea := Hall a Ha). assert (Eb := Hall b Hb). assert (Ec := Hall c Hc).
  unfold compareProjects.
  destruct (orderIndex a); [|congruence].
  destruct (orderIndex b); [|congruence].
  destruct (orderIndex c); [|congruence].
  split; [split|]; lia.
Qed.

Lemma unindexed_batch_consistent (docs : list Entry) :
  Forall (fun e => orderIndex e = None) docs -> consistent compareProjects docs.
Proof.
  intros Hall a b c Ha Hb Hc. rewrite Forall_forall in Hall.
  unfold compareProjects. rewrite (Hall a Ha), (Hall b Hb).
  split; [split|]; lia.
Qed.

(** A mixed batch on which the comparator is a strict total order, so every
    conforming sort agrees on the result: [a] before [b] by [orderIndex],
    and both before the legacy entry [c] by [createdAt].  The batch is not
    in [createdAt]-descending order, which would put the newest, [b],
    first. *)
Lemma mixed_batch_keeps_orderIndex_order :
  let st' := onSnapshot initial [Sample.b; Sample.c; Sample.a] in
  entries (projects st') = [Sample.a; Sample.b; Sample.c] /\
  orderIndex Sample.c = None /\
  (seconds Sample.a < seconds Sample.b)%Z /\
  (compareProjects Sample.a Sample.b < 0)%Z /\
  (compareProjects Sample.b Sample.c < 0)%Z /\
  (compareProjects Sample.a Sample.c < 0)%Z.
Proof. vm_compute. repeat split. Qed.

(** The order above does not depend on how the engine sorts: it is the only
    arrangement of the batch that the comparator accepts. *)
Lemma mixed_batch_order_unique (l : list Entry) :
  Permutation [Sample.a; Sample.b; Sample.c] l ->
  StronglySorted (fun x y => (compareProjects x y <=? 0)%Z = true) l ->
  l = [Sample.a; Sample.b; Sample.c].
Proof.
  intros Hp Hs.
  assert (Hlen := Permutation_length Hp).
  destruct l as [|x [|y [|z [|? ?]]]]; try discriminate.
  assert (Hnd : NoDup [x; y; z]).
  { apply (Permutation_NoDup Hp). repeat constructor; simpl; intuition discriminate. }
  assert (Hx : In x [Sample.a; Sample.b; Sample.c])
    by (apply (Permutation_in _ (Permutation_sym Hp)); simpl; auto).
  assert (Hy : In y [Sample.a; Sample.b; Sample.c])
    by (apply (Permutation_in _ (Permutation_sym Hp)); simpl; auto).
  assert (Hz : In z [Sample.a; Sample.b; Sample.c])
    by (apply (Permutation_in _ (Permutation_sym Hp)); simpl; auto).
  inversion Hs as [|? ? Hs1 Hx1]; subst.
  inversion Hs1 as [|? ? _ Hy1]; subst.
  inversion Hx1 as [|? ? Hxy Hx2]; subst. inversion Hx2 as [|? ? Hxz _]; subst.
  inversion Hy1 as [|? ? Hyz _]; subst.
  inversion Hnd as [|? ? Nx Hnd1]; subst. inversion Hnd1 as [|? ? Ny _]; subst.
  simpl in Hx, Hy, Hz, Nx, Ny.
  destruct Hx as [<- | [<- | [<- | []]]];
    destruct Hy as [<- | [<- | [<- | []]]];
    destruct Hz as [<- | [<- | [<- | []]]];
    try reflexivity;
    try (exfalso; apply Nx; auto; fail);
    try (exfalso; apply Ny; auto; fail);
    try (vm_compute in Hxy; discriminate);
    try (vm_compute in Hxz; discriminate);
    try (vm_compute in Hyz; discriminate).
Qed.

(** C2, amended: the comparator chooses its key per compared pair: it puts
    one entry before the other by [orderIndex] ascending when both entries of
    the pair define it, and by [createdAt] descending otherwise.  Hence a
    batch in which every entry defines [orderIndex] is ordered by
    [orderIndex] ascending, and a batch in which no entry defines it is
    ordered by [createdAt] descending; in every case the list holds exactly
    the entries of the batch.  A mixed batch need not come out newest first:
    the sample batch comes out as [a; b; c] although [b] is newer than
    [a]. *)
Theorem snapshot_order (st : State) (docs : list Entry) :
  let derived := entries (projects (onSnapshot st docs)) in
  Permutation docs derived /\
  (forall x y i j, orderIndex x = Some i -> orderIndex y = Some j ->
     ((compareProjects x y < 0)%Z <-> (i < j)%Z) /\
     ((compareProjects x y > 0)%Z <-> (i > j)%Z)) /\
  (forall x y, orderIndex x = None \/ orderIndex y = None ->
     ((compareProjects x y < 0)%Z <-> (seconds x > seconds y)%Z) /\
     ((compareProjects x y > 0)%Z <-> (seconds x < seconds y)%Z)) /\
  (Forall (fun e => orderIndex e <> None) docs ->
     StronglySorted
       (fun x y => exists i j, orderIndex x = Some i /\ orderIndex y = Some j /\ (i <= j)%Z)
       derived) /\
  (Forall (fun e => orderIndex e = None) docs ->
     StronglySorted (fun x y => (seconds x >= seconds y)%Z) derived) /\
  (entries (projects (onSnapshot st [Sample.b; Sample.c; Sample.a]))
   = [Sample.a; Sample.b; Sample.c] /\
   consistent compareProjects [Sample.b; Sample.c; Sample.a] /\
   (seconds Sample.a < seconds Sample.b)%Z).
Proof.
  cbv zeta. rewrite !onSnapshot_entries.
  assert (Hp := sort_perm compareProjects docs).
  split; [exact Hp|].
  split; [intros x y i j Hx Hy; unfold compareProjects; rewrite Hx, Hy; lia|].
  split.
  { intros x y [H | H]; unfold compareProjects; rewrite H; [lia|].
    destruct (orderIndex x); lia. }
  split; [|split].
  - intros Hall.
    assert (Hall' : Forall (fun e => orderIndex e <> None) (sort compareProjects docs))
      by (apply (Permutation_Forall Hp); exact Hall).
    assert (Hs : ascending (fun e => match orderIndex e with Some i => i | None => 0%Z end)
                           (sort compareProjects docs)).
    { apply sort_ascending. intros x y Hx Hy.
      rewrite Forall_forall in Hall.
      assert (Ex := Hall x Hx). assert (Ey := Hall y Hy).
      unfold compareProjects.
      destruct (orderIndex x) as [i|]; [|congruence].
      destruct (orderIndex y) as [j|]; [|congruence].
      destruct (Z.leb_spec (i - j) 0); destruct (Z.leb_spec i j); try reflexivity; lia. }
    unfold ascending in Hs. revert Hall' Hs.
    generalize (sort compareProjects docs). intros l Hl Hs.
    induction Hs as [|x l Hs IH Hx]; [constructor|].
    inversion Hl as [|? ? Hxo Hl']; subst.
    constructor; [now apply IH|].
    rewrite Forall_forall in *. intros y Hy.
    specialize (Hx y Hy). specialize (Hl' y Hy).
    destruct (orderIndex x) as [i|]; [|congruence].
    destruct (orderIndex y) as [j|]; [|congruence].
    exists i, j. repeat split. exact Hx.
  - intros Hall.
    assert (Hs : ascending (fun e => (- seconds e)%Z) (sort compareProjects docs)).
    { apply sort_ascending. intros x y Hx Hy.
      rewrite Forall_forall in Hall.
      unfold compareProjects. rewrite (Hall x Hx).
      destruct (Z.leb_spec (seconds y - seconds x) 0);
        destruct (Z.leb_spec (- seconds x) (- seconds y)); try reflexivity; lia. }
    unfold ascending in Hs.
    eapply strongly_sorted_weaken; [|exact Hs]. simpl. intros; lia.
  - split; [vm_compute; reflexivity|]. split; [|vm_compute; reflexivity].
    intros x y z Hx Hy Hz. simpl in Hx, Hy, Hz.
    destruct Hx as [<- | [<- | [<- | []]]];
      destruct Hy as [<- | [<- | [<- | []]]];
      destruct Hz as [<- | [<- | [<- | []]]];
      vm_compute; repeat split; intros; congruence.
Qed.

(** A push that arrives in the middle of a drag overwrites the working list:
    after the creator picked up the first card of [a; b], a push in which
    another client has swapped the two documents is rendered at once. *)
Lemma push_during_drag_overwrites :
  let st1 := fst (run initial [AuthState true; Snapshot [Sample.a; Sample.b]; DragStart 0]) in
  let st2 := fst (step st1 (Snapshot [Sample.a'; Sample.b'])) in
  dragging st1 = true /\
  ids (projects st1) = [lit "a"; lit "b"] /\
  dragging st2 = true /\
  ids (projects st2) = [lit "b"; lit "a"].
Proof. vm_compute. repeat split. Qed.

(** C1, amended: in every state of the engine, dragging or idle, a push
    replaces the local list by the pushed batch: the new list holds exactly
    the entries of the batch, each in an object made for this push, and
    nothing of the previous list; where the comparator orders the batch
    consistently the list is the stable sorted arrangement (no entry before
    one it compares greater than, ties in the order of the batch); the
    dragged-item marker is left as it was. *)
Theorem push_replaces_list_in_every_state (st : State) (docs : list Entry) :
  let st' := onSnapshot st docs in
  Permutation docs (entries (projects st')) /\
  (consistent compareProjects docs ->
     entries (projects st') = sort compareProjects docs /\
     StronglySorted (fun x y => (compareProjects x y <= 0)%Z)
                    (entries (projects st')) /\
     (forall x, In x docs ->
        filter (fun y => (compareProjects x y =? 0)%Z) (entries (projects st'))
        = filter (fun y => (compareProjects x y =? 0)%Z) docs)) /\
  List.length (projects st') = List.length docs /\
  Forall (fun v => exists r e, v = VObj r e /\ next_ref st <= r < next_ref st')
         (projects st') /\
  draggedItem st' = draggedItem st /\
  dragging st' = dragging st.
Proof.
  cbv zeta.
  split; [rewrite onSnapshot_entries; apply sort_perm|].
  split.
  { intros Hc. rewrite onSnapshot_entries.
    split; [reflexivity|]. split; [now apply sort_ordered|].
    intros x Hx. now apply sort_stable. }
  unfold onSnapshot. simpl.
  split; [|split; [|split; reflexivity]].
  - rewrite length_map, sort_length.
    rewrite <- (fresh_entries (next_ref st) docs) at 2. now rewrite length_map.
  - apply Forall_forall. intros v Hv. apply in_map_iff in Hv as ([r e] & <- & Ho).
    exists r, e. split; [reflexivity|].
    apply (Permutation_in _ (Permutation_sym (sort_perm _ _))) in Ho.
    apply fresh_refs in Ho. exact Ho.
Qed.

(* ================================================================= *)
(** * Drag and drop *)

Module DragFacts.

Lemma batch_updates_some (ps : list value) (index : nat) (us : list (jsstring * nat)) :
  batch_updates ps index = Some us ->
  map fst us = ids ps /\ map snd us = seq index (List.length ps) /\
  forallb is_entry ps = true.
Proof.
  revert index us. induction ps as [|v ps IH]; intros index us; simpl.
  - intros [= <-]. repeat split.
  - destruct v as [| |r e]; try discriminate.
    destruct (batch_updates ps (S index)) as [us'|] eqn:E; [|discriminate].
    intros [= <-]. destruct (IH _ _ E) as (H1 & H2 & H3).
    simpl. now rewrite H1, H2, H3.
Qed.

Lemma batch_updates_total (ps : list value) (index : nat) :
  forallb is_entry ps = true -> exists us, batch_updates ps index = Some us.
Proof.
  revert index. induction ps as [|v ps IH]; intros index; simpl.
  - intros _. now exists [].
  - destruct v as [| |r e]; simpl; try discriminate.
    intros H. destruct (IH (S index) H) as [us' ->]. eauto.
Qed.

(** The only commit [handleDragEnd] issues is the one built from the list. *)
Lemma handleDragEnd_commit (st : State) (ok : bool) (us : list (jsstring * nat)) :
  In (BatchCommit us) (snd (handleDragEnd st ok)) ->
  batch_updates (projects st) 0 = Some us /\
  handleDragEnd st ok =
    (set_draggedItem st VNull,
     [BatchCommit us;
      if ok then ConsoleLog "Order saved!" else ConsoleError "Failed to save order"]).
Proof.
  unfold handleDragEnd.
  destruct (batch_updates (projects st) 0) as [us'|]; simpl.
  - intros [[= ->] | [H | []]]; [split; reflexivity|].
    destruct ok; discriminate.
  - intros [H | []]. discriminate.
Qed.

(** A value that occurs once among the second components belongs to one
    pair only. *)
Lemma unique_target (us : list (jsstring * nat)) (x y : jsstring) (i : nat) :
  NoDup (map snd us) -> In (x, i) us -> In (y, i) us -> x = y.
Proof.
  induction us as [|[z k] us IH]; simpl; [contradiction|].
  intros Hnd Hx Hy. inversion Hnd as [|? ? Hk Hnd']; subst.
  assert (Hin : forall w, In (w, k) us -> False).
  { intros w Hw. apply Hk. change k with (snd (w, k)). now apply in_map. }
  destruct Hx as [Hx | Hx]; destruct Hy as [Hy | Hy].
  - congruence.
  - inversion Hx; subst. exfalso. eapply Hin; eassumption.
  - inversion Hy; subst. exfalso. eapply Hin; eassumption.
  - now apply IH.
Qed.

Lemma filter_all_true {A : Type} (f : A -> bool) (l : list A) :
  forallb f l = true -> filter f l = l.
Proof.
  induction l as [|x l IH]; simpl; [reflexivity|].
  intros H. apply andb_prop in H as [-> H]. now rewrite IH.
Qed.

Lemma splice_in_length (items : list value) (index : nat) (x : value) :
  List.length (splice_in items index x) = S (List.length items).
Proof.
  unfold splice_in. rewrite length_app. simpl.
  rewrite <- Nat.add_succ_comm. simpl. rewrite <- length_app, firstn_skipn.
  reflexivity.
Qed.

Lemma splice_in_holds (items : list value) (index : nat) (x : value) :
  In x (splice_in items index x).
Proof. unfold splice_in. apply in_or_app. right. now left. Qed.

End DragFacts.

Import DragFacts.

(** C3: whenever a drag end commits, the batch holds one update per slot of
    the working list, slot [i] writing [orderIndex = i] to the document of the
    entry in that slot: the values written are exactly [0 .. n-1], pairwise
    distinct, and no value is written to two different documents, whatever
    [orderIndex] the entries carried before.  A list of entries always
    commits. *)
Theorem commit_assigns_dense_positions (st : State) (ok : bool) :
  (forallb is_entry (projects st) = true ->
     exists us, In (BatchCommit us) (snd (handleDragEnd st ok))) /\
  (forall us, In (BatchCommit us) (snd (handleDragEnd st ok)) ->
     map fst us = ids (projects st) /\
     map snd us = seq 0 (List.length (projects st)) /\
     NoDup (map snd us) /\
     (forall x y i, In (x, i) us -> In (y, i) us -> x = y)).
Proof.
  split.
  - intros H. destruct (batch_updates_total (projects st) 0 H) as [us E].
    exists us. unfold handleDragEnd. rewrite E. now left.
  - intros us H. apply handleDragEnd_commit in H as [E _].
    apply batch_updates_some in E as (H1 & H2 & _).
    assert (Hnd : NoDup (map snd us)) by (rewrite H2; apply seq_NoDup).
    repeat split; try assumption.
    intros x y i. now apply unique_target.
Qed.

(** C5: with the working list [A; B; C], picking up [A] and hovering over the
    third card gives the working list [B; C; A], and the drag end that
    follows commits [orderIndex] 0, 1, 2 to the documents of [B], [C], [A];
    hovering [A] over its own card changes nothing, as does any hover over
    the card that holds the dragged entry. *)
Theorem hover_reorder_is_remove_and_reinsert
    (ea eb ec : Entry) (ra rb rc next : nat) (ok : bool) :
  ra <> rb -> ra <> rc -> rb <> rc ->
  let A := VObj ra ea in
  let B := VObj rb eb in
  let C := VObj rc ec in
  let st1 := handleDragStart (mkState [A; B; C] VNull true next) 0 in
  let st2 := onDragOver st1 2 in
  draggedItem st1 = A /\
  projects st2 = [B; C; A] /\
  handleDragEnd st2 ok =
    (set_draggedItem st2 VNull,
     [BatchCommit [(id eb, 0); (id ec, 1); (id ea, 2)];
      if ok then ConsoleLog "Order saved!" else ConsoleError "Failed to save order"]) /\
  onDragOver st1 0 = st1 /\
  (forall st index,
     strict_eq (draggedItem st) (at_index (projects st) index) = true ->
     onDragOver st index = st).
Proof.
  intros Hab Hac Hbc. cbv zeta.
  apply Nat.eqb_neq in Hab, Hac, Hbc.
  assert (Hba : Nat.eqb rb ra = false) by (now rewrite Nat.eqb_sym).
  assert (Hca : Nat.eqb rc ra = false) by (now rewrite Nat.eqb_sym).
  assert (Hst2 : projects (onDragOver
            (handleDragStart (mkState [VObj ra ea; VObj rb eb; VObj rc ec] VNull true next) 0) 2)
          = [VObj rb eb; VObj rc ec; VObj ra ea]).
  { unfold onDragOver, handleDragOver, handleDragStart. simpl.
    rewrite Hac. simpl. rewrite Nat.eqb_refl, Hba, Hca. reflexivity. }
  split; [reflexivity|].
  split; [exact Hst2|].
  split; [unfold handleDragEnd; rewrite Hst2; reflexivity|].
  split.
  - unfold onDragOver, handleDragOver, handleDragStart. simpl.
    now rewrite Nat.eqb_refl.
  - intros st index H. unfold onDragOver, handleDragOver. rewrite H.
    now destruct (isCreator st).
Qed.

Lemma hover_reorder_witness :
  projects (onDragOver
    (handleDragStart
       (mkState [VObj 0 Sample.a; VObj 1 Sample.b; VObj 2 Sample.c] VNull true 3) 0) 2)
  = [VObj 1 Sample.b; VObj 2 Sample.c; VObj 0 Sample.a].
Proof.
  refine (proj1 (proj2
    (hover_reorder_is_remove_and_reinsert Sample.a Sample.b Sample.c 0 1 2 3 true _ _ _)));
    lia.
Defined.

(** After a commit has failed the list on screen is still the optimistic
    one, [b; a], not the order of the last push, [a; b]. *)
Lemma failed_commit_keeps_optimistic_order :
  let pushed := run initial [AuthState true; Snapshot [Sample.a; Sample.b]] in
  let dropped := run (fst pushed) [DragStart 0; DragOver 1; DragEnd false] in
  ids (projects (fst pushed)) = [lit "a"; lit "b"] /\
  ids (projects (fst dropped)) = [lit "b"; lit "a"] /\
  draggedItem (fst dropped) = VNull /\
  snd dropped = [BatchCommit [(lit "b", 0); (lit "a", 1)];
                 ConsoleError "Failed to save order"].
Proof. vm_compute. repeat split. Qed.

(** C6, amended: when the bulk commit of a drag end fails, the engine has
    issued that one commit and logs the failure, with no further attempt;
    the dragged-item marker is cleared; the working list stays as the drag
    left it. *)
Theorem failed_commit_logs_and_keeps_list (st : State) (us : list (jsstring * nat)) :
  In (BatchCommit us) (snd (handleDragEnd st false)) ->
  snd (handleDragEnd st false) = [BatchCommit us; ConsoleError "Failed to save order"] /\
  draggedItem (fst (handleDragEnd st false)) = VNull /\
  projects (fst (handleDragEnd st false)) = projects st.
Proof.
  intros H. apply handleDragEnd_commit in H as [_ ->]. repeat split.
Qed.

Lemma failed_commit_witness :
  projects (fst (handleDragEnd
    (mkState [VObj 1 Sample.b; VObj 0 Sample.a] (VObj 0 Sample.a) true 2) false))
  = [VObj 1 Sample.b; VObj 0 Sample.a].
Proof.
  refine (proj2 (proj2
    (failed_commit_logs_and_keeps_list
       (mkState [VObj 1 Sample.b; VObj 0 Sample.a] (VObj 0 Sample.a) true 2)
       [(lit "b", 0); (lit "a", 1)] _))).
  left. reflexivity.
Defined.

Lemma strict_eq_null (v : value) : strict_eq VNull v = true -> v = VNull.
Proof. destruct v; simpl; congruence. Qed.

Lemma holds_null_not_entries (ps : list value) :
  In VNull ps -> forallb is_entry ps = false.
Proof.
  induction ps as [|v ps IH]; simpl; [contradiction|].
  intros [-> | H]; [reflexivity|]. rewrite (IH H). apply andb_false_r.
Qed.

Lemma entries_are_not_null (ps : list value) :
  forallb is_entry ps = true ->
  forallb (fun item => negb (strict_eq item VNull)) ps = true.
Proof.
  induction ps as [|v ps IH]; simpl; [reflexivity|].
  intros H. apply andb_prop in H as [Hv H]. rewrite (IH H).
  destruct v; simpl in *; congruence.
Qed.

(** C10: a hover delivered to a creator's card while nothing is being
    dragged leaves a list that holds the null marker, so not a list of
    entries; on a list of entries the marker is inserted at the hovered
    position and the list grows by one slot. *)
Theorem hover_without_drag_inserts_null (st : State) (index : nat) :
  isCreator st = true ->
  draggedItem st = VNull ->
  let st' := onDragOver st index in
  In VNull (projects st') /\
  forallb is_entry (projects st') = false /\
  (forallb is_entry (projects st) = true ->
     projects st' = firstn index (projects st) ++ VNull :: skipn index (projects st) /\
     List.length (projects st') = S (List.length (projects st)) /\
     (index < List.length (projects st) -> at_index (projects st') index = VNull)).
Proof.
  intros Hc Hd. cbv zeta.
  assert (Hin : In VNull (projects (onDragOver st index))).
  { unfold onDragOver, handleDragOver. rewrite Hc, Hd.
    destruct (strict_eq VNull (at_index (projects st) index)) eqn:E.
    - apply strict_eq_null in E. unfold at_index in E.
      destruct (nth_in_or_default index (projects st) VUndefined) as [H | H].
      + now rewrite E in H.
      + congruence.
    - simpl. apply splice_in_holds. }
  split; [exact Hin|].
  split; [now apply holds_null_not_entries|].
  intros Hall.
  assert (Hover : strict_eq VNull (at_index (projects st) index) = false).
  { destruct (strict_eq VNull (at_index (projects st) index)) eqn:E; [|reflexivity].
    apply strict_eq_null in E. unfold at_index in E.
    destruct (nth_in_or_default index (projects st) VUndefined) as [H | H].
    - rewrite E in H. apply holds_null_not_entries in H. congruence.
    - congruence. }
  assert (Hps : projects (onDragOver st index)
                = firstn index (projects st) ++ VNull :: skipn index (projects st)).
  { unfold onDragOver, handleDragOver. rewrite Hc, Hd, Hover. simpl.
    rewrite (filter_all_true _ _ (entries_are_not_null _ Hall)). reflexivity. }
  split; [exact Hps|]. rewrite Hps. split.
  - apply (splice_in_length (projects st) index VNull).
  - intros Hlt. unfold at_index.
    rewrite app_nth2; rewrite length_firstn, Nat.min_l by lia; [|lia].
    now rewrite Nat.sub_diag.
Qed.

Lemma hover_without_drag_witness :
  projects (onDragOver (mkState [VObj 0 Sample.a; VObj 1 Sample.b] VNull true 2) 1)
  = [VObj 0 Sample.a; VNull; VObj 1 Sample.b].
Proof.
  refine (proj1 (proj2 (proj2
    (hover_without_drag_inserts_null
       (mkState [VObj 0 Sample.a; VObj 1 Sample.b] VNull true 2) 1 _ _)) _));
    reflexivity.
Defined.

(* ================================================================= *)
(** * Further properties of the sanitizer *)

Module SanitizerMore.

Lemma replace_open_fixed (t : jsstring) :
  replace re_open t = t <-> ~ starts_with_opening_marker t.
Proof.
  split.
  - intros Ho (m & rest & Hm & Ht).
    assert (E := replace_open_marker m rest Hm). rewrite <- Ht, Ho in E.
    apply opening_marker_length in Hm.
    apply (f_equal (@List.length _)) in Ht. rewrite length_app, E in Ht. lia.
  - intros Hno.
    destruct (replace_open_cases t) as [[_ E] | (m & Hm & E)]; [exact E|].
    exfalso. apply Hno. exists m, (replace re_open t). split; assumption.
Qed.

Lemma replace_close_fixed (t : jsstring) :
  replace re_close t = t <-> ~ ends_with_fence t.
Proof.
  unfold replace. split.
  - intros Hc (p & Ht).
    assert (E := replace_close_fence true p). rewrite <- Ht, Hc in E.
    apply (f_equal (@List.length _)) in Ht. rewrite length_app, E in Ht.
    simpl in Ht. lia.
  - intros Hnc.
    destruct (replace_close_cases true t) as [[E _] | E]; [exact E|].
    exfalso. apply Hnc. exists (replace_from re_close true t). exact E.
Qed.

Lemma trim_of_trimmed (s : jsstring) :
  clean_head s -> clean_head (rev s) -> trim s = s.
Proof.
  intros H1 H2. unfold trim, trimEnd.
  rewrite (clean_head_trimStart s H1), (clean_head_trimStart (rev s) H2).
  apply rev_involutive.
Qed.

Lemma letters_stop (ls rest : jsstring) (c : N) :
  Forall (fun x => is_letter x = true) ls -> is_letter c = false ->
  letters (ls ++ c :: rest) = List.length ls.
Proof.
  intros Hls Hc. induction Hls as [|x ls Hx _ IH]; simpl.
  - now rewrite Hc.
  - now rewrite Hx, IH.
Qed.

Lemma last_not_backtick (q : jsstring) (c : N) :
  c <> backtick -> ~ ends_with_fence (q ++ [c]).
Proof.
  intros Hc (p & Hp). unfold fence in Hp.
  change (p ++ [backtick; backtick; backtick])
    with (p ++ [backtick; backtick] ++ [backtick]) in Hp.
  rewrite app_assoc in Hp. apply app_inj_tail in Hp as [_ Hp]. contradiction.
Qed.

End SanitizerMore.

Import SanitizerMore.

(** X1: a text with no opening fence line in front and no closing fence at
    the end passes the two patterns untouched and is only trimmed. *)
Theorem cleanCode_without_markers (s : jsstring) :
  ~ starts_with_opening_marker s -> ~ ends_with_fence s -> cleanCode s = trim s.
Proof.
  intros Ho Hc. unfold cleanCode.
  apply replace_open_fixed in Ho. rewrite Ho.
  apply replace_close_fixed in Hc. now rewrite Hc.
Qed.

Lemma cleanCode_without_markers_witness :
  cleanCode (lit " <p>x</p> ") = trim (lit " <p>x</p> ").
Proof.
  apply (cleanCode_without_markers (lit " <p>x</p> ")).
  - apply replace_open_fixed. vm_compute. reflexivity.
  - apply replace_close_fixed. vm_compute. reflexivity.
Defined.

(** X2: the texts the sanitizer returns as they are, are exactly those with
    no opening fence line in front, no closing fence at the end and no blank
    character at either end. *)
Theorem cleanCode_fixed_points (s : jsstring) :
  cleanCode s = s <->
  ~ starts_with_opening_marker s /\ ~ ends_with_fence s /\
  clean_head s /\ clean_head (rev s).
Proof.
  split.
  - intros H. destruct (cleanCode_fixed_stages s H) as [Ho Hc].
    split; [now apply replace_open_fixed|].
    split; [now apply replace_close_fixed|].
    rewrite <- H. unfold cleanCode.
    split; [apply trim_clean_head | apply trim_clean_last].
  - intros (Ho & Hc & H1 & H2).
    rewrite (cleanCode_without_markers s Ho Hc). now apply trim_of_trimmed.
Qed.

(** X3: an opening line whose info string holds anything but letters before
    its line feed (a digit, a plus sign, a space, a carriage return) is not
    an opening marker: the first pattern leaves the text as it is. *)
Theorem info_string_with_other_characters_stays (ls rest : jsstring) (c : N) :
  Forall (fun x => is_letter x = true) ls ->
  is_letter c = false -> c <> LF ->
  replace re_open (fence ++ ls ++ c :: rest) = fence ++ ls ++ c :: rest /\
  cleanCode (fence ++ ls ++ c :: rest)
  = trim (replace re_close (fence ++ ls ++ c :: rest)).
Proof.
  intros Hls Hc Hlf.
  assert (H : replace re_open (fence ++ ls ++ c :: rest) = fence ++ ls ++ c :: rest).
  { destruct (replace_open_cases (fence ++ ls ++ c :: rest)) as [[_ E] | (m & Hm & E)];
      [exact E|].
    exfalso.
    assert (Hre : re_open true (fence ++ ls ++ c :: rest) = None).
    { unfold fence. simpl.
      rewrite (letters_stop ls rest c Hls Hc).
      rewrite skipn_app, Nat.sub_diag, skipn_all. simpl.
      apply N.eqb_neq in Hlf. now rewrite Hlf. }
    apply (no_opening_marker _ Hre).
    exists m, (replace re_open (fence ++ ls ++ c :: rest)). split; assumption. }
  split; [exact H|]. unfold cleanCode. now rewrite H.
Qed.

Lemma info_string_witness :
  replace re_open (lit ("```c++" ++ nl ++ "int x;")) = lit ("```c++" ++ nl ++ "int x;").
Proof.
  refine (proj1 (info_string_with_other_characters_stays
                   (lit "c") (lit ("+" ++ nl ++ "int x;")) 43%N _ _ _)).
  - repeat constructor.
  - reflexivity.
  - discriminate.
Defined.

(** X4: the closing fence goes only when it is the very end of the text:
    after an opening marker, a text whose last character is not a backtick
    (a line feed after the closing fence, say) keeps everything but the
    opening line and is trimmed. *)
Theorem closing_fence_must_be_last (m q : jsstring) (c : N) :
  opening_marker m -> c <> backtick ->
  cleanCode (m ++ q ++ [c]) = trim (q ++ [c]).
Proof.
  intros Hm Hc. unfold cleanCode.
  rewrite (replace_open_marker m (q ++ [c]) Hm).
  assert (H := last_not_backtick q c Hc). apply replace_close_fixed in H.
  now rewrite H.
Qed.

Lemma closing_fence_witness :
  cleanCode (lit ("```html" ++ nl) ++ lit ("<p>x</p>" ++ nl ++ "```") ++ [LF])
  = trim (lit ("<p>x</p>" ++ nl ++ "```") ++ [LF]).
Proof.
  apply (closing_fence_must_be_last (lit ("```html" ++ nl))
           (lit ("<p>x</p>" ++ nl ++ "```")) LF).
  - exists (lit "html"). split; [repeat constructor | reflexivity].
  - discriminate.
Defined.

(* ================================================================= *)
(** * Further properties of the snapshot listener *)

Module SortMore.

Section Generic.
Context {A : Type}.

Lemma insert_ext (cmp cmp' : A -> A -> Z) (x : A) (l : list A) :
  (forall y, In y l -> cmp x y = cmp' x y) -> insert cmp x l = insert cmp' x l.
Proof.
  induction l as [|y l IH]; intros H; simpl; [reflexivity|].
  rewrite <- (H y (or_introl eq_refl)).
  destruct (cmp x y <=? 0)%Z; [reflexivity|].
  f_equal. apply IH. intros z Hz. apply H. now right.
Qed.

Lemma sort_ext (cmp cmp' : A -> A -> Z) (l : list A) :
  (forall x y, In x l -> In y l -> cmp x y = cmp' x y) ->
  sort cmp l = sort cmp' l.
Proof.
  induction l as [|x l IH]; intros H; simpl; [reflexivity|].
  rewrite <- IH by (intros a b Ha Hb; apply H; now right).
  apply insert_ext. intros y Hy. apply H; [now left|].
  right. apply (Permutation_in _ (Permutation_sym (sort_perm cmp l)) Hy).
Qed.

Variable key : A -> Z.

Lemma key_inj (l : list A) (x y : A) :
  NoDup (map key l) -> In x l -> In y l -> key x = key y -> x = y.
Proof.
  induction l as [|z l IH]; simpl; [contradiction|].
  intros Hnd Hx Hy E. inversion Hnd as [|? ? Hz Hnd']; subst.
  destruct Hx as [-> | Hx]; destruct Hy as [-> | Hy].
  - reflexivity.
  - exfalso. apply Hz. rewrite E. now apply in_map.
  - exfalso. apply Hz. rewrite <- E. now apply in_map.
  - now apply IH.
Qed.

(** With pairwise distinct keys a batch has one ascending arrangement. *)
Lemma ascending_unique (l l' : list A) :
  Permutation l l' -> ascending key l -> ascending key l' ->
  NoDup (map key l) -> l = l'.
Proof.
  revert l'. induction l as [|x t IH]; intros l' Hp Hs Hs' Hnd.
  - apply Permutation_nil in Hp. now subst.
  - destruct l' as [|y t'].
    { apply Permutation_sym, Permutation_nil in Hp. discriminate. }
    inversion Hs as [|? ? Hst Hx]; subst.
    inversion Hs' as [|? ? Hst' Hy]; subst.
    rewrite Forall_forall in Hx, Hy.
    assert (Hyin : In y (x :: t))
      by (apply (Permutation_in _ (Permutation_sym Hp)); now left).
    assert (Hxin : In x (y :: t')) by (apply (Permutation_in _ Hp); now left).
    assert (E : x = y).
    { destruct Hyin as [E | Hyt]; [exact E|].
      destruct Hxin as [E | Hxt]; [now symmetry|].
      apply (key_inj (x :: t)); [exact Hnd | now left | now right|].
      specialize (Hx y Hyt). specialize (Hy x Hxt). lia. }
    subst y. f_equal. apply IH; try assumption.
    + now apply Permutation_cons_inv in Hp.
    + simpl in Hnd. now inversion Hnd.
Qed.

Lemma ascending_after (l1 l2 : list A) (x : A) :
  ascending key (l1 ++ x :: l2) -> Forall (fun z => (key x <= key z)%Z) l2.
Proof.
  induction l1 as [|y l1 IH]; simpl; intros H; inversion H; subst; auto.
Qed.

(** An element whose key is above all the others comes last. *)
Lemma ascending_greatest_last (l rest : list A) (x : A) :
  Permutation l (x :: rest) -> ascending key l ->
  Forall (fun z => (key z < key x)%Z) rest ->
  exists front, l = front ++ [x] /\ Permutation front rest.
Proof.
  intros Hp Hs Hrest.
  assert (Hin : In x l) by (apply (Permutation_in _ (Permutation_sym Hp)); now left).
  apply in_split in Hin as (l1 & l2 & ->).
  assert (Hp' : Permutation (l1 ++ l2) rest).
  { apply Permutation_cons_inv with (a := x).
    rewrite <- Hp. apply Permutation_middle. }
  destruct l2 as [|z l2].
  - exists l1. split; [reflexivity|]. now rewrite app_nil_r in Hp'.
  - exfalso. apply ascending_after in Hs. inversion Hs as [|? ? Hz _]; subst.
    rewrite Forall_forall in Hrest.
    assert (Hzin : In z rest).
    { apply (Permutation_in _ Hp'). apply in_or_app. right. now left. }
    specialize (Hrest z Hzin). lia.
Qed.
End Generic.

(** The key the comparator uses between entries that all define
    [orderIndex]. *)
Definition index_key (e : Entry) : Z :=
  match orderIndex e with Some i => i | None => 0%Z end.

Lemma sort_by_index (docs : list Entry) :
  Forall (fun e => orderIndex e <> None) docs ->
  ascending index_key (sort compareProjects docs).
Proof.
  intros Hall. apply sort_ascending. intros x y Hx Hy.
  rewrite Forall_forall in Hall.
  assert (Ex := Hall x Hx). assert (Ey := Hall y Hy).
  unfold compareProjects, index_key.
  destruct (orderIndex x) as [i|]; [|congruence].
  destruct (orderIndex y) as [j|]; [|congruence].
  destruct (Z.leb_spec (i - j) 0); destruct (Z.leb_spec i j); try reflexivity; lia.
Qed.

Lemma committed_fields (ps : list value) (k : nat) (us : list (jsstring * nat)) :
  batch_updates ps k = Some us ->
  map orderIndex (committed (entries ps) us)
  = map (fun i => Some (Z.of_nat i)) (seq k (List.length ps)) /\
  map id (committed (entries ps) us) = ids ps.
Proof.
  revert k us. induction ps as [|v ps IH]; intros k us; simpl.
  - intros [= <-]. split; reflexivity.
  - destruct v as [| |r e]; try discriminate.
    destruct (batch_updates ps (S k)) as [us'|] eqn:E; [|discriminate].
    intros [= <-]. destruct (IH _ _ E) as [H1 H2].
    unfold committed in *. simpl. rewrite H1, H2. split; reflexivity.
Qed.

Lemma committed_ascending (ps : list value) (k : nat) (us : list (jsstring * nat)) :
  batch_updates ps k = Some us ->
  ascending index_key (committed (entries ps) us) /\
  NoDup (map index_key (committed (entries ps) us)) /\
  Forall (fun e => orderIndex e <> None) (committed (entries ps) us).
Proof.
  intros H. apply committed_fields in H as [H _].
  assert (Hk : map index_key (committed (entries ps) us)
               = map Z.of_nat (seq k (List.length ps))).
  { transitivity (map (fun o => match o with Some i => i | None => 0%Z end)
                      (map orderIndex (committed (entries ps) us))).
    - rewrite map_map. reflexivity.
    - rewrite H, map_map. reflexivity. }
  assert (Hdef : Forall (fun e => orderIndex e <> None) (committed (entries ps) us)).
  { apply Forall_forall. intros e He.
    apply (in_map orderIndex) in He. rewrite H in He.
    apply in_map_iff in He as (i & <- & _). discriminate. }
  split; [|split; [|exact Hdef]].
  - unfold ascending.
    revert Hk. generalize (committed (entries ps) us) k (List.length ps).
    clear. intros l. induction l as [|e l IH]; intros k n Hk; [constructor|].
    destruct n as [|n]; [discriminate|]. simpl in Hk. injection Hk as He Hl.
    constructor; [apply (IH (S k) n Hl)|].
    apply Forall_forall. intros z Hz.
    apply (in_map index_key) in Hz. rewrite Hl in Hz.
    apply in_map_iff in Hz as (i & <- & Hi). apply in_seq in Hi. lia.
  - rewrite Hk. apply Finite.Injective_map_NoDup; [|apply seq_NoDup].
    intros i j. apply Nat2Z.inj.
Qed.

End SortMore.

Import SortMore.

(** X5: on a batch in which no entry defines [orderIndex], as the earlier
    uploader wrote them, the listener derives the very order the earlier
    listener derived, newest first. *)
Theorem legacy_batches_order_as_before (st : State) (docs : list Entry) :
  Forall (fun e => orderIndex e = None) docs ->
  entries (projects (onSnapshot st docs)) = Legacy.onSnapshot docs.
Proof.
  intros Hall. rewrite onSnapshot_entries. unfold Legacy.onSnapshot.
  apply sort_ext. intros x y Hx _.
  rewrite Forall_forall in Hall.
  unfold compareProjects, Legacy.compareProjects. now rewrite (Hall x Hx).
Qed.

Lemma legacy_batches_witness :
  entries (projects (onSnapshot initial
    [Legacy.handleUpload (lit "p") (lit "T") (lit "D") (lit "<p>x</p>") (Some 1%Z);
     Legacy.handleUpload (lit "q") (lit "T") (lit "D") (lit "<p>y</p>") (Some 2%Z)]))
  = Legacy.onSnapshot
    [Legacy.handleUpload (lit "p") (lit "T") (lit "D") (lit "<p>x</p>") (Some 1%Z);
     Legacy.handleUpload (lit "q") (lit "T") (lit "D") (lit "<p>y</p>") (Some 2%Z)].
Proof.
  apply legacy_batches_order_as_before. repeat constructor.
Defined.

(** X6: the push that echoes a commit reproduces the committed order.  When
    a drag end has committed, any batch that holds the entries of the working
    list with the committed [orderIndex] values, in whatever order the store
    delivers them, is rendered in the order of the working list. *)
Theorem commit_echo_reproduces_order
    (st st2 : State) (ok : bool) (us : list (jsstring * nat)) (docs : list Entry) :
  In (BatchCommit us) (snd (handleDragEnd st ok)) ->
  Permutation docs (committed (entries (projects st)) us) ->
  entries (projects (onSnapshot st2 docs)) = committed (entries (projects st)) us /\
  ids (projects (onSnapshot st2 docs)) = ids (projects st).
Proof.
  intros Hc Hp. apply handleDragEnd_commit in Hc as [Hb _].
  destruct (committed_ascending _ _ _ Hb) as (Hasc & Hnd & Hdef).
  destruct (committed_fields _ _ _ Hb) as [_ Hids].
  assert (E : entries (projects (onSnapshot st2 docs))
              = committed (entries (projects st)) us).
  { rewrite onSnapshot_entries. symmetry.
    apply (ascending_unique index_key).
    - rewrite <- Hp. apply sort_perm.
    - exact Hasc.
    - apply sort_by_index.
      apply (Permutation_Forall (Permutation_sym Hp)). exact Hdef.
    - exact Hnd. }
  split; [exact E|]. rewrite ids_entries, E. exact Hids.
Qed.

Lemma commit_echo_witness :
  ids (projects (onSnapshot
         (mkState [VObj 1 Sample.b; VObj 0 Sample.a] VNull true 2)
         [with_orderIndex Sample.a 1; with_orderIndex Sample.b 0]))
  = ids [VObj 1 Sample.b; VObj 0 Sample.a].
Proof.
  refine (proj2 (commit_echo_reproduces_order
    (mkState [VObj 1 Sample.b; VObj 0 Sample.a] (VObj 0 Sample.a) true 2)
    (mkState [VObj 1 Sample.b; VObj 0 Sample.a] VNull true 2)
    true [(lit "b", 0); (lit "a", 1)]
    [with_orderIndex Sample.a 1; with_orderIndex Sample.b 0] _ _)).
  - left. reflexivity.
  - apply perm_swap.
Defined.

(* ================================================================= *)
(** * Saving an entry *)

(** X7: an entry created while every other document carries an [orderIndex]
    below the length of the local list is rendered last by the push that
    delivers it; the code it stores is the sanitized text. *)
Theorem created_entry_is_rendered_last
    (ps : list value) (uid t d raw col docId : jsstring) (ts : option Z)
    (w : StoreWrite) (e : Entry) (others docs : list Entry) (st : State) :
  handleSave VNull (Some uid) ps t d raw col = Some w ->
  created w docId ts = Some e ->
  Forall (fun x => exists i, orderIndex x = Some i /\ (i < Z.of_nat (List.length ps))%Z)
         others ->
  Permutation docs (e :: others) ->
  code e = cleanCode raw /\
  orderIndex e = Some (Z.of_nat (List.length ps)) /\
  exists front,
    entries (projects (onSnapshot st docs)) = front ++ [e] /\
    Permutation front others.
Proof.
  intros Hsave Hcreated Hothers Hp.
  simpl in Hsave. injection Hsave as <-. simpl in Hcreated. injection Hcreated as <-.
  split; [reflexivity|]. split; [reflexivity|].
  rewrite onSnapshot_entries.
  apply (ascending_greatest_last index_key).
  - rewrite <- Hp. apply Permutation_sym, sort_perm.
  - apply sort_by_index. apply (Permutation_Forall (Permutation_sym Hp)).
    constructor; [discriminate|].
    eapply Forall_impl; [|exact Hothers]. simpl. intros x (i & -> & _). discriminate.
  - eapply Forall_impl; [|exact Hothers]. simpl.
    intros x (i & Hx & Hi). unfold index_key. rewrite Hx. simpl. exact Hi.
Qed.

Lemma created_entry_witness :
  exists front,
    entries (projects (onSnapshot initial
      [mkEntry (lit "n") (lit "T") (lit "D") (cleanCode (lit "<p>n</p>"))
               (Some (lit "rose")) (Some 2%Z) None;
       with_orderIndex Sample.a 1; with_orderIndex Sample.b 0]))
    = front ++ [mkEntry (lit "n") (lit "T") (lit "D") (cleanCode (lit "<p>n</p>"))
                        (Some (lit "rose")) (Some 2%Z) None] /\
    Permutation front [with_orderIndex Sample.a 1; with_orderIndex Sample.b 0].
Proof.
  refine (proj2 (proj2 (created_entry_is_rendered_last
    [VObj 1 Sample.b; VObj 0 Sample.a] (lit "u") (lit "T") (lit "D")
    (lit "<p>n</p>") (lit "rose") (lit "n") None
    (AddDoc (lit "T") (lit "D") (cleanCode (lit "<p>n</p>")) (lit "rose") 2 (lit "u"))
    _ [with_orderIndex Sample.a 1; with_orderIndex Sample.b 0] _ initial
    eq_refl eq_refl _ (Permutation_refl _)))).
  repeat constructor; [exists 1%Z | exists 0%Z]; split; try reflexivity; simpl; lia.
Defined.

(** X8: when a delete has left the local list shorter than the largest
    [orderIndex] in use, a created entry takes the [orderIndex] of a listed
    entry: the comparator ties the two, in both directions. *)
Theorem created_entry_can_tie
    (ps : list value) (uid t d raw col docId : jsstring) (ts : option Z)
    (w : StoreWrite) (e x : Entry) :
  handleSave VNull (Some uid) ps t d raw col = Some w ->
  created w docId ts = Some e ->
  In x (entries ps) ->
  orderIndex x = Some (Z.of_nat (List.length ps)) ->
  orderIndex e = orderIndex x /\
  compareProjects e x = 0%Z /\ compareProjects x e = 0%Z.
Proof.
  intros Hsave Hcreated _ Hx.
  simpl in Hsave. injection Hsave as <-. simpl in Hcreated. injection Hcreated as <-.
  unfold compareProjects. rewrite Hx. simpl. repeat split; lia.
Qed.

Lemma created_entry_tie_witness :
  compareProjects
    (mkEntry (lit "n") (lit "T") (lit "D") (cleanCode (lit "<p>n</p>"))
             (Some (lit "rose")) (Some 1%Z) None)
    Sample.b = 0%Z.
Proof.
  refine (proj1 (proj2 (created_entry_can_tie
    [VObj 0 Sample.b] (lit "u") (lit "T") (lit "D") (lit "<p>n</p>") (lit "rose")
    (lit "n") None
    (AddDoc (lit "T") (lit "D") (cleanCode (lit "<p>n</p>")) (lit "rose") 1 (lit "u"))
    _ Sample.b eq_refl eq_refl _ eq_refl))).
  left. reflexivity.
Defined.

(* ================================================================= *)
(** * Further properties of drag and drop *)

Module DragMore.

Lemma refs_app (l1 l2 : list value) : refs (l1 ++ l2) = refs l1 ++ refs l2.
Proof.
  induction l1 as [|v l1 IH]; simpl; [reflexivity|].
  destruct v; simpl; now rewrite ?IH.
Qed.

Lemma refs_to_value (l : list obj) : refs (map to_value l) = map fst l.
Proof.
  induction l as [|[r e] l IH]; simpl; [reflexivity | now rewrite IH].
Qed.

Lemma refs_in (ps : list value) (r : nat) (e : Entry) :
  In (VObj r e) ps -> In r (refs ps).
Proof.
  induction ps as [|v ps IH]; simpl; [contradiction|].
  intros [-> | H]; [now left|].
  destruct v; simpl; auto.
Qed.

Lemma refs_filter_entry (ps : list value) (r : nat) (e : Entry) :
  refs (filter (fun item => negb (strict_eq item (VObj r e))) ps)
  = filter (fun x => negb (Nat.eqb x r)) (refs ps).
Proof.
  induction ps as [|v ps IH]; simpl; [reflexivity|].
  destruct v as [| |r' e']; simpl; try exact IH.
  destruct (Nat.eqb r' r); simpl; now rewrite IH.
Qed.

Lemma refs_filter_other (ps : list value) (d : value) :
  is_entry d = false ->
  refs (filter (fun item => negb (strict_eq item d)) ps) = refs ps.
Proof.
  intros Hd. induction ps as [|v ps IH]; simpl; [reflexivity|].
  destruct v as [| |r e]; destruct d; try discriminate; simpl;
    try exact IH; now rewrite IH.
Qed.

Lemma refs_splice_in (items : list value) (index : nat) (d : value) :
  Permutation (refs (splice_in items index d)) (refs [d] ++ refs items).
Proof.
  unfold splice_in.
  rewrite <- (firstn_skipn index items) at 3.
  change (d :: skipn index items) with ([d] ++ skipn index items).
  rewrite !refs_app. rewrite app_assoc, app_assoc.
  apply Permutation_app_tail, Permutation_app_comm.
Qed.

(** Two slots with the same address hold the same object. *)
Lemma same_ref_same_entry (ps : list value) (r : nat) (e e' : Entry) :
  NoDup (refs ps) -> In (VObj r e) ps -> In (VObj r e') ps -> e = e'.
Proof.
  induction ps as [|v ps IH]; simpl; [contradiction|].
  intros Hnd [H1 | H1] [H2 | H2].
  - congruence.
  - subst v. simpl in Hnd. inversion Hnd; subst.
    exfalso. eauto using refs_in.
  - subst v. simpl in Hnd. inversion Hnd; subst.
    exfalso. eauto using refs_in.
  - apply IH; try assumption. destruct v; simpl in Hnd; try assumption.
    now inversion Hnd.
Qed.

Lemma filter_keeps_others (l : list value) (r : nat) (e : Entry) :
  ~ In r (refs l) ->
  filter (fun item => negb (strict_eq item (VObj r e))) l = l.
Proof.
  induction l as [|v l IH]; simpl; [reflexivity|].
  destruct v as [| |r' e']; simpl; intros H.
  - now rewrite IH.
  - now rewrite IH.
  - destruct (Nat.eqb_spec r' r) as [-> | Hne]; simpl.
    + exfalso. apply H. now left.
    + rewrite IH; [reflexivity|]. intros Hin. apply H. now right.
Qed.

Lemma splice_in_perm (items : list value) (index : nat) (d : value) :
  Permutation (d :: items) (splice_in items index d).
Proof.
  unfold splice_in. rewrite <- (firstn_skipn index items) at 1.
  apply Permutation_middle.
Qed.

Lemma splice_in_at (items : list value) (index : nat) (d : value) :
  index <= List.length items -> at_index (splice_in items index d) index = d.
Proof.
  intros H. unfold at_index, splice_in.
  rewrite app_nth2; rewrite length_firstn, Nat.min_l by lia; [|lia].
  now rewrite Nat.sub_diag.
Qed.

Lemma fresh_addresses (n : nat) (docs : list Entry) :
  map fst (fresh n docs) = seq n (List.length docs).
Proof.
  unfold fresh. revert n. induction docs as [|d docs IH]; intros n; simpl.
  - reflexivity.
  - now rewrite IH.
Qed.

(** *** The invariant, handler by handler *)

Lemma well_formed_onSnapshot (st : State) (docs : list Entry) :
  well_formed st -> well_formed (onSnapshot st docs).
Proof.
  intros (_ & _ & Hd). unfold well_formed, onSnapshot. simpl projects.
  simpl next_ref. simpl draggedItem. rewrite refs_to_value.
  set (data := sort (fun a b => compareProjects (snd a) (snd b))
                    (fresh (next_ref st) docs)).
  assert (Hp : Permutation (seq (next_ref st) (List.length docs)) (map fst data)).
  { unfold data. rewrite <- sort_perm. now rewrite fresh_addresses. }
  split; [|split].
  - apply (Permutation_NoDup Hp), seq_NoDup.
  - apply (Permutation_Forall Hp). apply Forall_forall.
    intros r Hr. apply in_seq in Hr. lia.
  - eapply Forall_impl; [|exact Hd]. simpl. intros; lia.
Qed.

Lemma well_formed_handleDragStart (st : State) (index : nat) :
  well_formed st -> well_formed (handleDragStart st index).
Proof.
  intros (Hnd & Hb & _). unfold well_formed, handleDragStart. simpl.
  split; [exact Hnd|]. split; [exact Hb|].
  unfold at_index.
  destruct (nth_in_or_default index (projects st) VUndefined) as [H | ->];
    [|constructor].
  destruct (nth index (projects st) VUndefined) as [| |r e]; try constructor.
  - rewrite Forall_forall in Hb. apply Hb. eauto using refs_in.
  - constructor.
Qed.

Lemma well_formed_handleDragOver (st : State) (index : nat) :
  well_formed st -> well_formed (handleDragOver st index).
Proof.
  intros Hwf. unfold handleDragOver.
  destruct (strict_eq (draggedItem st) (at_index (projects st) index));
    [exact Hwf|].
  destruct Hwf as (Hnd & Hb & Hd). unfold well_formed. simpl.
  set (d := draggedItem st) in *.
  set (items := filter (fun item => negb (strict_eq item d)) (projects st)).
  assert (Hp := refs_splice_in items index d).
  assert (Hsub : forall r, In r (refs items) -> In r (refs (projects st))).
  { intros r. unfold items. destruct d as [| |r' e'].
    - now rewrite refs_filter_other.
    - now rewrite refs_filter_other.
    - rewrite refs_filter_entry. intros H. now apply filter_In in H. }
  assert (Hnd' : NoDup (refs items)).
  { unfold items. destruct d as [| |r' e'].
    - now rewrite refs_filter_other.
    - now rewrite refs_filter_other.
    - rewrite refs_filter_entry. now apply NoDup_filter. }
  split; [|split; [|exact Hd]].
  - apply (Permutation_NoDup (Permutation_sym Hp)).
    destruct d as [| |r' e'] eqn:Ed; simpl; try exact Hnd'.
    constructor; [|exact Hnd'].
    unfold items. rewrite refs_filter_entry. intros H.
    apply filter_In in H as [_ H]. now rewrite Nat.eqb_refl in H.
  - apply (Permutation_Forall (Permutation_sym Hp)).
    apply Forall_app. split; [exact Hd|].
    rewrite Forall_forall in *. auto.
Qed.

Lemma well_formed_step (st : State) (ev : Event) :
  well_formed st -> well_formed (fst (step st ev)).
Proof.
  intros Hwf. destruct ev as [b | docs | | index | index | ok]; simpl.
  - exact Hwf.
  - now apply well_formed_onSnapshot.
  - exact Hwf.
  - destruct (isCreator st); [now apply well_formed_handleDragStart | exact Hwf].
  - unfold onDragOver.
    destruct (isCreator st); [now apply well_formed_handleDragOver | exact Hwf].
  - destruct (isCreator st); [|exact Hwf].
    unfold handleDragEnd. destruct Hwf as (Hnd & Hb & _).
    destruct (batch_updates (projects st) 0); simpl;
      (split; [exact Hnd | split; [exact Hb | constructor]]).
Qed.

Lemma run_cons (st : State) (ev : Event) (evs : list Event) :
  fst (run st (ev :: evs)) = fst (run (fst (step st ev)) evs).
Proof.
  simpl. destruct (step st ev) as [st1 out1]. simpl.
  destruct (run st1 evs) as [st2 out2]. reflexivity.
Qed.

End DragMore.

Import DragMore.

(** X9: in every state the controller loop can reach, each object of the
    list has an address of its own and every object, the dragged one
    included, lies below the next free address: no handler ever puts the
    same object into two slots. *)
Theorem reachable_states_are_well_formed (evs : list Event) :
  well_formed (fst (run initial evs)).
Proof.
  assert (H : forall st, well_formed st -> well_formed (fst (run st evs))).
  { induction evs as [|ev evs IH]; intros st Hwf; [exact Hwf|].
    rewrite run_cons. apply IH. now apply well_formed_step. }
  apply H. repeat split; constructor.
Qed.

(** X10: while the dragged object is one of the cards, a hover over any card
    keeps the cards: the new list is a rearrangement of the old one, and the
    dragged object stands at the hovered position. *)
Theorem hover_with_live_marker_rearranges
    (st : State) (index r : nat) (e : Entry) :
  well_formed st -> isCreator st = true ->
  draggedItem st = VObj r e -> In (VObj r e) (projects st) ->
  index < List.length (projects st) ->
  Permutation (projects st) (projects (onDragOver st index)) /\
  at_index (projects (onDragOver st index)) index = VObj r e.
Proof.
  intros (Hnd & _ & _) Hc Hd Hin Hlt.
  unfold onDragOver, handleDragOver. rewrite Hc, Hd.
  destruct (strict_eq (VObj r e) (at_index (projects st) index)) eqn:E.
  - split; [reflexivity|].
    unfold at_index in *.
    assert (Hnth := nth_In (projects st) VUndefined Hlt).
    destruct (nth index (projects st) VUndefined) as [| |r' e'];
      simpl in E; try discriminate.
    apply Nat.eqb_eq in E. subst r'.
    f_equal. apply (same_ref_same_entry (projects st) r); assumption.
  - simpl projects.
    apply in_split in Hin as (l1 & l2 & Hps). rewrite Hps in *.
    rewrite refs_app in Hnd. simpl in Hnd.
    assert (H1 : ~ In r (refs l1)).
    { intros H. apply NoDup_remove_2 in Hnd. apply Hnd.
      apply in_or_app. now left. }
    assert (H2 : ~ In r (refs l2)).
    { intros H. apply NoDup_remove_2 in Hnd. apply Hnd.
      apply in_or_app. now right. }
    assert (Hf : filter (fun item => negb (strict_eq item (VObj r e)))
                        (l1 ++ VObj r e :: l2) = l1 ++ l2).
    { rewrite filter_app. simpl. rewrite Nat.eqb_refl. simpl.
      now rewrite !filter_keeps_others. }
    rewrite Hf. split.
    + rewrite <- splice_in_perm. symmetry. apply Permutation_middle.
    + apply splice_in_at. rewrite length_app in *. simpl in Hlt. lia.
Qed.

Lemma hover_with_live_marker_witness :
  at_index (projects (onDragOver
    (mkState [VObj 0 Sample.a; VObj 1 Sample.b; VObj 2 Sample.c]
             (VObj 2 Sample.c) true 3) 0)) 0
  = VObj 2 Sample.c.
Proof.
  refine (proj2 (hover_with_live_marker_rearranges
    (mkState [VObj 0 Sample.a; VObj 1 Sample.b; VObj 2 Sample.c]
             (VObj 2 Sample.c) true 3) 0 2 Sample.c _ eq_refl eq_refl _ _)).
  - repeat split; repeat constructor; simpl; intuition lia.
  - simpl. auto.
  - simpl. lia.
Defined.

(** X11: a push replaces every object, so the marker of a drag in progress
    no longer is one of the cards; the next hover then removes nothing and
    inserts the old object: the list is one slot longer than the batch and
    shows the dragged document once more than the batch holds it. *)
Theorem hover_after_push_adds_a_card
    (st : State) (docs : list Entry) (index r : nat) (e : Entry) :
  well_formed st -> isCreator st = true -> draggedItem st = VObj r e ->
  let pushed := onSnapshot st docs in
  projects (onDragOver pushed index) = splice_in (projects pushed) index (VObj r e) /\
  List.length (projects (onDragOver pushed index)) = S (List.length docs) /\
  Permutation (ids (projects (onDragOver pushed index)))
              (id e :: ids (projects pushed)).
Proof.
  intros (_ & _ & Hd) Hc Hm. cbv zeta.
  rewrite Hm in Hd. simpl in Hd. inversion Hd as [|? ? Hr _]; subst.
  assert (Hfresh : Forall (fun x => next_ref st <= x)
                          (refs (projects (onSnapshot st docs)))).
  { unfold onSnapshot. simpl projects. rewrite refs_to_value.
    rewrite <- (sort_perm _ (fresh (next_ref st) docs)), fresh_addresses.
    apply Forall_forall. intros x Hx. apply in_seq in Hx. lia. }
  assert (Hout : ~ In r (refs (projects (onSnapshot st docs)))).
  { intros H. rewrite Forall_forall in Hfresh. specialize (Hfresh r H). lia. }
  assert (Hover : strict_eq (VObj r e)
                    (at_index (projects (onSnapshot st docs)) index) = false).
  { unfold at_index.
    destruct (nth_in_or_default index (projects (onSnapshot st docs)) VUndefined)
      as [H | ->]; [|reflexivity].
    destruct (nth index (projects (onSnapshot st docs)) VUndefined) as [| |r' e'];
      try reflexivity.
    simpl. apply Nat.eqb_neq. intros ->. apply Hout. eauto using refs_in. }
  assert (Hps : projects (onDragOver (onSnapshot st docs) index)
                = splice_in (projects (onSnapshot st docs)) index (VObj r e)).
  { unfold onDragOver, handleDragOver.
    change (isCreator (onSnapshot st docs)) with (isCreator st).
    change (draggedItem (onSnapshot st docs)) with (draggedItem st).
    rewrite Hc, Hm, Hover. unfold set_projects. cbn [projects].
    now rewrite (filter_keeps_others _ r e Hout). }
  split; [exact Hps|]. rewrite Hps. split.
  - rewrite splice_in_length. f_equal.
    unfold onSnapshot. simpl projects. rewrite length_map, sort_length.
    rewrite <- (fresh_entries (next_ref st) docs) at 2. now rewrite length_map.
  - rewrite !ids_entries.
    change (id e :: map id (entries (projects (onSnapshot st docs))))
      with (map id (entries (VObj r e :: projects (onSnapshot st docs)))).
    apply Permutation_map.
    assert (Hent : forall l l', Permutation l l' -> Permutation (entries l) (entries l')).
    { induction 1 as [|v l l' _ IH|v v' l|l l' l'' _ IH1 _ IH2]; simpl.
      - constructor.
      - destruct v; simpl; auto.
      - destruct v, v'; simpl; auto. apply perm_swap.
      - now transitivity (entries l'). }
    apply Hent. symmetry. apply splice_in_perm.
Qed.

Lemma hover_after_push_witness :
  List.length (projects (onDragOver
    (onSnapshot (mkState [VObj 0 Sample.a; VObj 1 Sample.b] (VObj 0 Sample.a) true 2)
                [Sample.a'; Sample.b']) 1))
  = 3.
Proof.
  refine (proj1 (proj2 (hover_after_push_adds_a_card
    (mkState [VObj 0 Sample.a; VObj 1 Sample.b] (VObj 0 Sample.a) true 2)
    [Sample.a'; Sample.b'] 1 0 Sample.a _ eq_refl eq_refl))).
  repeat split; repeat constructor; simpl; intuition lia.
Defined.

(* ================================================================= *)
(** * Routing and view logic *)

Module ViewFacts.

Lemma startsWith_app (p x : jsstring) : startsWith (p ++ x) p = true.
Proof.
  induction p as [|c p IH]; simpl; [now destruct x|].
  now rewrite N.eqb_refl, IH.
Qed.

Lemma replace_str_eq (pat s : jsstring) :
  replace_str pat s =
  if startsWith s pat then skipn (List.length pat) s
  else match s with [] => [] | c :: s' => c :: replace_str pat s' end.
Proof. destruct s; reflexivity. Qed.

Lemma replace_str_prefix (p x : jsstring) : replace_str p (p ++ x) = x.
Proof.
  rewrite replace_str_eq, startsWith_app, skipn_app, Nat.sub_diag, skipn_all.
  reflexivity.
Qed.

Lemma includes_empty (s : jsstring) : includes s [] = true.
Proof. destruct s; reflexivity. Qed.

Lemma find_active_throws (ps : list value) (target : option jsstring) :
  find_active ps target = FindThrew -> forallb is_entry ps = false.
Proof.
  induction ps as [|v ps IH]; simpl; [discriminate|].
  destruct v as [| |r p]; simpl; try reflexivity.
  destruct target as [i|]; [destruct (jsstring_eqb (id p) i); [discriminate|]|];
    exact IH.
Qed.

Lemma find_active_present (ps : list value) (r : nat) (e : Entry) :
  forallb is_entry ps = true -> NoDup (ids ps) -> In (VObj r e) ps ->
  find_active ps (Some (id e)) = Found (VObj r e).
Proof.
  induction ps as [|v ps IH]; simpl; [contradiction|].
  destruct v as [| |r' p]; simpl; try discriminate.
  intros Hall Hnd Hin. inversion Hnd as [|? ? Hid Hnd']; subst.
  destruct Hin as [[= -> ->] | Hin].
  - assert (E : jsstring_eqb (id e) (id e) = true) by now apply jsstring_eqb_eq.
    now rewrite E.
  - destruct (jsstring_eqb (id p) (id e)) eqn:E.
    + apply jsstring_eqb_eq in E. exfalso. apply Hid. rewrite E.
      rewrite ids_entries. apply in_map.
      clear - Hin. induction ps as [|v ps IH]; simpl in *; [contradiction|].
      destruct Hin as [-> | Hin]; [now left|].
      destruct v; simpl; auto.
    + now apply IH.
Qed.

Lemma find_active_absent (ps : list value) (i : jsstring) :
  forallb is_entry ps = true -> ~ In i (ids ps) ->
  find_active ps (Some i) = FindUndefined.
Proof.
  induction ps as [|v ps IH]; simpl; [reflexivity|].
  destruct v as [| |r p]; simpl; try discriminate.
  intros Hall Hout. destruct (jsstring_eqb (id p) i) eqn:E.
  - apply jsstring_eqb_eq in E. exfalso. apply Hout. now left.
  - apply IH; [exact Hall|]. intros H. apply Hout. now right.
Qed.

Section Search.
Variable toLowerCase : jsstring -> jsstring.

Lemma filteredProjects_throws (ps : list value) (searchTerm : jsstring) :
  filteredProjects toLowerCase ps searchTerm = None <-> forallb is_entry ps = false.
Proof.
  induction ps as [|v ps IH]; simpl.
  - split; discriminate.
  - destruct v as [| |r p]; simpl; try (split; reflexivity).
    destruct (filteredProjects toLowerCase ps searchTerm).
    + split; [discriminate|]. intros H. apply IH in H. discriminate.
    + split; [|reflexivity]. intros _. now apply IH.
Qed.

Lemma filteredProjects_entries (ps : list value) (searchTerm : jsstring) :
  forallb is_entry ps = true ->
  exists cards, filteredProjects toLowerCase ps searchTerm = Some cards.
Proof.
  intros H. destruct (filteredProjects toLowerCase ps searchTerm) as [cards|] eqn:E.
  - now exists cards.
  - apply filteredProjects_throws in E. congruence.
Qed.
End Search.

Lemma hover_without_drag_holds_null (st : State) (index : nat) :
  isCreator st = true -> draggedItem st = VNull ->
  In VNull (projects (onDragOver st index)).
Proof.
  intros Hc Hd. unfold onDragOver, handleDragOver. rewrite Hc, Hd.
  destruct (strict_eq VNull (at_index (projects st) index)) eqn:E.
  - apply strict_eq_null in E. unfold at_index in E.
    destruct (nth_in_or_default index (projects st) VUndefined) as [H | H].
    + now rewrite E in H.
    + congruence.
  - simpl. apply splice_in_holds.
Qed.

End ViewFacts.

Import ViewFacts.

(** X12: the view logic throws exactly when the list holds a slot that is
    not an entry, whatever the route, the search term and the sign-in
    state; on a list of entries it always chooses a screen. *)
Theorem view_logic_throws_iff
    (toLowerCase : jsstring -> jsstring) (authLoading : bool)
    (st : State) (rt : Route) (searchTerm : jsstring) :
  view_logic toLowerCase authLoading st rt searchTerm = ViewThrew <->
  forallb is_entry (projects st) = false.
Proof.
  unfold view_logic. split.
  - destruct (find_active (projects st) (activeProjectId rt)) eqn:Ef;
      [intros _; eapply find_active_throws; exact Ef | |];
      (destruct (filteredProjects toLowerCase (projects st) searchTerm) eqn:E;
       [|intros _; eapply filteredProjects_throws; exact E]);
      destruct authLoading, (view rt), (isCreator st), (projects st);
      discriminate.
  - intros H. apply (filteredProjects_throws toLowerCase _ searchTerm) in H.
    rewrite H. now destruct (find_active (projects st) (activeProjectId rt)).
Qed.

Lemma view_logic_throws_on
    (toLowerCase : jsstring -> jsstring) (authLoading : bool)
    (st : State) (rt : Route) (searchTerm : jsstring) :
  forallb is_entry (projects st) = false ->
  view_logic toLowerCase authLoading st rt searchTerm = ViewThrew.
Proof.
  intros H. apply (filteredProjects_throws toLowerCase _ searchTerm) in H.
  unfold view_logic. rewrite H.
  now destruct (find_active (projects st) (activeProjectId rt)).
Qed.

(** X13: after a hover delivered to a creator's card while nothing is being
    dragged, the view logic of the next render throws. *)
Theorem hover_without_drag_breaks_the_view
    (toLowerCase : jsstring -> jsstring) (authLoading : bool)
    (st : State) (index : nat) (rt : Route) (searchTerm : jsstring) :
  isCreator st = true -> draggedItem st = VNull ->
  view_logic toLowerCase authLoading (onDragOver st index) rt searchTerm = ViewThrew.
Proof.
  intros Hc Hd. apply view_logic_throws_on.
  apply holds_null_not_entries. now apply hover_without_drag_holds_null.
Qed.

Lemma hover_without_drag_view_witness :
  view_logic ascii_toLowerCase false
    (onDragOver (mkState [VObj 0 Sample.a; VObj 1 Sample.b] VNull true 2) 1)
    (mkRoute view_list None VNull) []
  = ViewThrew.
Proof.
  apply (hover_without_drag_breaks_the_view ascii_toLowerCase false
           (mkState [VObj 0 Sample.a; VObj 1 Sample.b] VNull true 2) 1);
    reflexivity.
Defined.

Lemma location_hash_after_some (path h : jsstring) :
  location_hash_after path = Some h -> h = path.
Proof.
  unfold location_hash_after. destruct path as [|c rest]; [discriminate|].
  destruct ((c =? 35)%N && forallb (fun x => unreserved x || (x =? 47)%N) rest)%bool;
    [now intros [= <-] | discriminate].
Qed.

(** The fragment of a card whose id is made of unreserved characters is
    read back as assigned. *)
Lemma project_hash_read_back (e : Entry) :
  forallb unreserved (id e) = true ->
  location_hash_after (project_hash e) = Some (project_hash e).
Proof.
  intros H. unfold project_hash.
  change (lit "#/project/" ++ id e)
    with (35%N :: (lit "/project/" ++ id e)).
  unfold location_hash_after. rewrite N.eqb_refl, forallb_app.
  assert (Hid : forallb (fun x => unreserved x || (x =? 47)%N) (id e) = true).
  { rewrite forallb_forall in *. intros x Hx. now rewrite (H x Hx). }
  rewrite Hid. reflexivity.
Qed.

(** X14: when the fragment a click on a card assigns is one the browser
    reads back as assigned (an id of letters, digits and [- . _ ~], as the
    store generates them), the routing handler selects that id and the view
    logic opens that card's entry in the viewer, for a list of entries with
    pairwise distinct ids. *)
Theorem card_click_opens_the_entry
    (toLowerCase : jsstring -> jsstring) (st : State) (rt : Route)
    (searchTerm h : jsstring) (r : nat) (e : Entry) :
  forallb is_entry (projects st) = true -> NoDup (ids (projects st)) ->
  In (VObj r e) (projects st) ->
  location_hash_after (project_hash e) = Some h ->
  activeProjectId (handleHash h rt) = Some (id e) /\
  view_logic toLowerCase false st (handleHash h rt) searchTerm
  = ViewerScreen (VObj r e).
Proof.
  intros Hall Hnd Hin Hread.
  apply location_hash_after_some in Hread. subst h.
  assert (Hh : handleHash (project_hash e) rt
               = mkRoute view_view (Some (id e)) (editingProject rt)).
  { unfold handleHash, project_hash.
    now rewrite startsWith_app, replace_str_prefix. }
  rewrite Hh. split; [reflexivity|].
  unfold view_logic. simpl activeProjectId. simpl view.
  rewrite (find_active_present _ r e Hall Hnd Hin).
  destruct (filteredProjects_entries toLowerCase _ searchTerm Hall) as [cards ->].
  reflexivity.
Qed.

Lemma card_click_witness :
  view_logic ascii_toLowerCase false
    (mkState [VObj 0 Sample.a; VObj 1 Sample.b] VNull false 2)
    (handleHash (project_hash Sample.b) (mkRoute view_list None VNull)) []
  = ViewerScreen (VObj 1 Sample.b).
Proof.
  refine (proj2 (card_click_opens_the_entry ascii_toLowerCase
    (mkState [VObj 0 Sample.a; VObj 1 Sample.b] VNull false 2)
    (mkRoute view_list None VNull) [] (project_hash Sample.b) 1 Sample.b
    eq_refl _ _ _)).
  - repeat constructor; simpl; intuition discriminate.
  - simpl. auto.
  - apply project_hash_read_back. reflexivity.
Defined.

(** X15: a project fragment that names no listed entry (a deleted or a
    mistyped id, or none at all) does not open the viewer: the list is
    shown. *)
Theorem unknown_project_shows_the_list
    (toLowerCase : jsstring -> jsstring) (st : State) (rt : Route)
    (searchTerm i : jsstring) :
  forallb is_entry (projects st) = true -> ~ In i (ids (projects st)) ->
  projects st <> [] ->
  exists cards,
    filteredProjects toLowerCase (projects st) searchTerm = Some cards /\
    view_logic toLowerCase false st (handleHash (lit "#/project/" ++ i) rt) searchTerm
    = ListScreen cards.
Proof.
  intros Hall Hout Hne.
  assert (Hh : handleHash (lit "#/project/" ++ i) rt
               = mkRoute view_view (Some i) (editingProject rt)).
  { unfold handleHash. now rewrite startsWith_app, replace_str_prefix. }
  rewrite Hh.
  destruct (filteredProjects_entries toLowerCase _ searchTerm Hall) as [cards Hc].
  exists cards. split; [exact Hc|].
  unfold view_logic. simpl activeProjectId. simpl view.
  rewrite (find_active_absent _ i Hall Hout), Hc.
  destruct (projects st); [congruence | reflexivity].
Qed.

Lemma unknown_project_witness :
  exists cards,
    filteredProjects ascii_toLowerCase [VObj 0 Sample.a] [] = Some cards /\
    view_logic ascii_toLowerCase false (mkState [VObj 0 Sample.a] VNull false 1)
      (handleHash (lit "#/project/" ++ lit "zz") (mkRoute view_list None VNull)) []
    = ListScreen cards.
Proof.
  apply (unknown_project_shows_the_list ascii_toLowerCase
           (mkState [VObj 0 Sample.a] VNull false 1)
           (mkRoute view_list None VNull) [] (lit "zz")).
  - reflexivity.
  - simpl. intuition discriminate.
  - discriminate.
Defined.

(** X16: whenever the routing handler runs on the fragment [#/upload], the
    edit marker it leaves holds no entry.  So the upload screen it leads a
    creator to is the empty New Project form, a save from there adds a
    document and never updates one, and a guest gets the access notice. *)
Theorem upload_route_starts_a_new_project
    (toLowerCase : jsstring -> jsstring) (st : State) (rt : Route)
    (searchTerm : jsstring) :
  forallb is_entry (projects st) = true ->
  let rt' := handleHash (lit "#/upload") rt in
  is_entry (editingProject rt') = false /\
  view_logic toLowerCase false st rt' searchTerm
  = (if isCreator st then UploadFormScreen (editingProject rt') else CreatorAccessOnly) /\
  populate (editingProject rt') = UploadForm.mkForm [] [] [] (lit "indigo") /\
  (forall uid ps t d raw col,
     handleSave (editingProject rt') (Some uid) ps t d raw col
     = Some (AddDoc t d (cleanCode raw) col (List.length ps) uid)).
Proof.
  intros Hall. cbv zeta.
  assert (Hh : handleHash (lit "#/upload") rt
               = mkRoute view_upload None
                   (if is_entry (editingProject rt) then VNull else editingProject rt))
    by reflexivity.
  rewrite Hh. simpl editingProject.
  set (v := if is_entry (editingProject rt) then VNull else editingProject rt).
  assert (Hv : is_entry v = false).
  { unfold v. destruct (editingProject rt); reflexivity. }
  split; [exact Hv|]. split; [|split].
  - unfold view_logic. simpl activeProjectId. simpl view.
    destruct (filteredProjects_entries toLowerCase _ searchTerm Hall) as [cards ->].
    destruct (find_active (projects st) None) eqn:Ef; try reflexivity.
    apply find_active_throws in Ef. congruence.
  - destruct v; [reflexivity | reflexivity | discriminate].
  - intros uid ps t d raw col. destruct v; [reflexivity | reflexivity | discriminate].
Qed.

Lemma upload_route_witness :
  is_entry (editingProject
    (handleHash (lit "#/upload") (mkRoute view_list None (VObj 0 Sample.a)))) = false.
Proof.
  refine (proj1 (upload_route_starts_a_new_project ascii_toLowerCase
    (mkState [VObj 0 Sample.a] VNull true 1)
    (mkRoute view_list None (VObj 0 Sample.a)) [] eq_refl)).
Defined.

(** X17: with the search box empty every card is rendered, in the order of
    the list, so the position of a card on screen is its position in the
    list. *)
Theorem empty_search_shows_every_card
    (toLowerCase : jsstring -> jsstring) (ps : list value) :
  toLowerCase [] = [] -> forallb is_entry ps = true ->
  filteredProjects toLowerCase ps [] = Some ps.
Proof.
  intros Hl. induction ps as [|v ps IH]; simpl; [reflexivity|].
  destruct v as [| |r p]; simpl; try discriminate.
  intros Hall. rewrite (IH Hall).
  unfold matches_search. now rewrite Hl, includes_empty.
Qed.

Lemma empty_search_witness :
  filteredProjects ascii_toLowerCase [VObj 0 Sample.a; VObj 1 Sample.b] []
  = Some [VObj 0 Sample.a; VObj 1 Sample.b].
Proof.
  apply (empty_search_shows_every_card ascii_toLowerCase
           [VObj 0 Sample.a; VObj 1 Sample.b]); reflexivity.
Defined.

(** X18: the drag handlers index [projects] with the position of the card on
    screen.  When the search hides the first entry of the list and shows the
    second, the card rendered first is the second entry, yet a drag started
    on it picks up the hidden first entry. *)
Theorem drag_under_search_picks_hidden_entry
    (toLowerCase : jsstring -> jsstring) (st : State) (searchTerm : jsstring)
    (r0 r1 : nat) (e0 e1 : Entry) (rest : list value) :
  projects st = VObj r0 e0 :: VObj r1 e1 :: rest ->
  forallb is_entry rest = true ->
  matches_search toLowerCase e0 searchTerm = false ->
  matches_search toLowerCase e1 searchTerm = true ->
  r0 <> r1 ->
  exists cards,
    filteredProjects toLowerCase (projects st) searchTerm = Some (VObj r1 e1 :: cards) /\
    draggedItem (handleDragStart st 0) = VObj r0 e0 /\
    strict_eq (draggedItem (handleDragStart st 0)) (VObj r1 e1) = false.
Proof.
  intros Hps Hall H0 H1 Hne.
  destruct (filteredProjects_entries toLowerCase rest searchTerm Hall) as [cards Hc].
  exists cards. unfold handleDragStart. rewrite Hps. simpl.
  rewrite Hc, H0, H1. repeat split. now apply Nat.eqb_neq.
Qed.

Lemma drag_under_search_witness :
  exists cards,
    filteredProjects ascii_toLowerCase
      [VObj 0 (mkEntry (lit "p") (lit "Alpha") (lit "first") (lit "<p>a</p>") None None None);
       VObj 1 (mkEntry (lit "q") (lit "Beta") (lit "second") (lit "<p>b</p>") None None None)]
      (lit "BETA")
    = Some (VObj 1 (mkEntry (lit "q") (lit "Beta") (lit "second") (lit "<p>b</p>")
                            None None None) :: cards) /\
    draggedItem (handleDragStart
      (mkState
         [VObj 0 (mkEntry (lit "p") (lit "Alpha") (lit "first") (lit "<p>a</p>") None None None);
          VObj 1 (mkEntry (lit "q") (lit "Beta") (lit "second") (lit "<p>b</p>") None None None)]
         VNull true 2) 0)
    = VObj 0 (mkEntry (lit "p") (lit "Alpha") (lit "first") (lit "<p>a</p>") None None None) /\
    strict_eq (draggedItem (handleDragStart
      (mkState
         [VObj 0 (mkEntry (lit "p") (lit "Alpha") (lit "first") (lit "<p>a</p>") None None None);
          VObj 1 (mkEntry (lit "q") (lit "Beta") (lit "second") (lit "<p>b</p>") None None None)]
         VNull true 2) 0))
      (VObj 1 (mkEntry (lit "q") (lit "Beta") (lit "second") (lit "<p>b</p>") None None None))
    = false.
Proof.
  apply (drag_under_search_picks_hidden_entry ascii_toLowerCase
    (mkState
       [VObj 0 (mkEntry (lit "p") (lit "Alpha") (lit "first") (lit "<p>a</p>") None None None);
        VObj 1 (mkEntry (lit "q") (lit "Beta") (lit "second") (lit "<p>b</p>") None None None)]
       VNull true 2) (lit "BETA") 0 1 _ _ []); try reflexivity.
  lia.
Defined.

(* ================================================================= *)
(** * The controller loop *)

Lemma run_effects (st : State) (ev : Event) (evs : list Event) :
  snd (run st (ev :: evs)) = snd (step st ev) ++ snd (run (fst (step st ev)) evs).
Proof.
  simpl. destruct (step st ev) as [st1 out1]. simpl.
  destruct (run st1 evs) as [st2 out2]. reflexivity.
Qed.

Lemma step_commits (st : State) (ev : Event) :
  List.length (filter is_commit (snd (step st ev)))
  <= (if is_drag_end ev then 1 else 0).
Proof.
  destruct ev as [b | docs | | index | index | ok]; simpl; try lia.
  destruct (isCreator st); simpl; [|lia].
  unfold handleDragEnd. destruct (batch_updates (projects st) 0); simpl; [|lia].
  destruct ok; simpl; lia.
Qed.

(** X19: over any run of events the store is asked to commit at most once
    per drag end, and never for any other event: hovers, pushes and sign-in
    changes write nothing. *)
Theorem commits_only_at_drag_end (st : State) (evs : list Event) :
  List.length (filter is_commit (snd (run st evs)))
  <= List.length (filter is_drag_end evs).
Proof.
  revert st. induction evs as [|ev evs IH]; intros st; [simpl; lia|].
  rewrite run_effects, filter_app, length_app.
  assert (H1 := step_commits st ev).
  assert (H2 := IH (fst (step st ev))).
  simpl. destruct (is_drag_end ev); simpl; lia.
Qed.
